(** * Phase estimation driver of qiskit-terra

    A shallow embedding of
    [qiskit/algorithms/phase_estimators/phase_estimation.py]
    (class [PhaseEstimation]) and the properties of its three operations:
    [construct_circuit], [_compute_phases] and [estimate].

    Python objects live in a store and are passed by reference; methods are
    functions in a state-and-exception monad over that store.  The numerical
    back end (state vectors, partial trace) and the executor are external
    collaborators: the former is an interface ([QiskitLibrary]), the latter an
    oracle carried by the [QuantumInstance]. *)

From Stdlib Require Import ZArith QArith Qabs Ascii String Floats.
From stdpp Require Import base option list strings sorting.

(** ** Exceptions and the two monads *)

(** A reference to a Python object: its index in the store. *)
Abbreviation loc := nat (only parsing).

(** The exceptions the driver can end with.  [ExecutorError] stands for any
    exception that comes out of the executor, whatever its Python class: the
    driver neither catches nor translates it.  [DanglingReference] is not a
    Python exception: it makes the store lookup total, and no Python caller
    can hold a reference that is outside the store. *)
Inductive exn :=
| ValueError (msg : string)
| AttributeError (attr : string)
| TypeError
| KeyError (key : string)
| ZeroDivisionError
| OverflowError
| ExecutorError (msg : string)
| DanglingReference (r : loc).

(** Outcome of a computation that does not touch the store. *)
Inductive res (A : Type) :=
| Ok (a : A)
| Raise (e : exn).
Arguments Ok {A} a.
Arguments Raise {A} e.

#[global] Instance res_ret : MRet res := @Ok.
#[global] Instance res_bind : MBind res := λ A B f m,
  match m with
  | Ok a => f a
  | Raise e => Raise e
  end.

(** ** Circuits *)

(** Modelled from the spec: [QuantumCircuit], [ClassicalRegister] and the
    instructions of a circuit, which are not in the source tree.  Section 3:
    a circuit is a number of qubits, "evaluation register ⊕ unitary-acted
    register", an "optional measurement register", and the operations applied
    to them; an operation is opaque but for barriers and measurements. *)
Inductive Operation :=
| Gate (name : string)
| Barrier
| Measure.

Record Instruction := mkInstruction {
  operation : Operation;
  qubits : list nat;
  clbits : list nat
}.

Record ClassicalRegister := mkClassicalRegister {
  creg_size : nat;
  creg_name : string
}.

Record QuantumCircuit := mkQuantumCircuit {
  num_qubits : nat;
  cregs : list ClassicalRegister;
  data : list Instruction
}.

(** Python's [range(a, b)]. *)
Definition range (a b : nat) : list nat := seq a (b - a).

(** Modelled from the spec: [QuantumCircuit.add_register], [barrier] and
    [measure], which are not in the source tree.  Section 4.1: the builder
    "appends a classical measurement register over only the evaluation qubits,
    with a separating barrier", and has "no error paths; pure composition".
    [barrier()] without arguments spans every qubit of the circuit;
    [measure(qs, cs)] measures qubit [qs[i]] into classical bit [cs[i]]. *)
Definition add_register (creg : ClassicalRegister) (c : QuantumCircuit) : QuantumCircuit :=
  {| num_qubits := num_qubits c; cregs := cregs c ++ [creg]; data := data c |}.

Definition barrier (c : QuantumCircuit) : QuantumCircuit :=
  {| num_qubits := num_qubits c;
     cregs := cregs c;
     data := data c ++ [mkInstruction Barrier (range 0 (num_qubits c)) []] |}.

Definition measure (qs cs : list nat) (c : QuantumCircuit) : QuantumCircuit :=
  {| num_qubits := num_qubits c;
     cregs := cregs c;
     data := data c ++ zip_with (λ q b, mkInstruction Measure [q] [b]) qs cs |}.

(** Modelled from the spec: [QuantumCircuit.compose(other, qubits=...,
    inplace=True, front=...)], which is not in the source tree.  Section 4.1:
    the sub-circuit is placed "onto the unitary's register range only", "at an
    offset equal to the evaluation-register width", and with [front] it is
    prepended.  Qubit [q] of [other] lands on [qubits[q]]; [other] itself is
    only read. *)
Definition place (onto : list nat) (i : Instruction) : Instruction :=
  {| operation := operation i;
     qubits := (λ q, nth q onto q) <$> qubits i;
     clbits := clbits i |}.

Definition compose (other : QuantumCircuit) (onto : list nat) (front : bool)
    (c : QuantumCircuit) : QuantumCircuit :=
  {| num_qubits := num_qubits c;
     cregs := cregs c;
     data := if front then (place onto <$> data other) ++ data c
             else data c ++ (place onto <$> data other) |}.

(** ** The store *)

(** The circuits allocated so far, and the executor's log: every circuit handed
    to the executor, as it was at that moment. *)
Record world := mkWorld {
  heap : list QuantumCircuit;
  executions : list (loc * QuantumCircuit)
}.

Definition M (A : Type) : Type := world → res A * world.

#[global] Instance M_ret : MRet M := λ A a w, (Ok a, w).
#[global] Instance M_bind : MBind M := λ A B f m w,
  match m w with
  | (Ok a, w') => f a w'
  | (Raise e, w') => (Raise e, w')
  end.

Definition raise {A} (e : exn) : M A := λ w, (Raise e, w).

Definition lift {A} (r : res A) : M A := λ w, (r, w).

Definition alloc (c : QuantumCircuit) : M loc := λ w,
  (Ok (length (heap w)),
   {| heap := heap w ++ [c]; executions := executions w |}).

Definition deref (r : loc) : M QuantumCircuit := λ w,
  match heap w !! r with
  | Some c => (Ok c, w)
  | None => (Raise (DanglingReference r), w)
  end.

(** A method call that mutates the object behind [r] in place. *)
Definition mutate (r : loc) (f : QuantumCircuit → QuantumCircuit) : M unit := λ w,
  match heap w !! r with
  | Some c => (Ok (), {| heap := <[r := f c]> (heap w); executions := executions w |})
  | None => (Raise (DanglingReference r), w)
  end.

(** ** Dictionaries

    A Python [dict] keeps its keys unique and in insertion order: an association
    list without repeated keys. *)
Abbreviation dict V := (list (string * V)) (only parsing).

Definition keys {V} (d : dict V) : list string := d.*1.

Fixpoint dict_get {V} (k : string) (d : dict V) : option V :=
  match d with
  | [] => None
  | (k', v) :: d' => if String.eqb k k' then Some v else dict_get k d'
  end.

(** [d[k]] *)
Definition getitem {V} (d : dict V) (k : string) : res V :=
  match dict_get k d with
  | Some v => Ok v
  | None => Raise (KeyError k)
  end.

(** [d[k] = v]: an existing key keeps its place. *)
Fixpoint dict_set {V} (k : string) (v : V) (d : dict V) : dict V :=
  match d with
  | [] => [(k, v)]
  | (k', v') :: d' =>
      if String.eqb k k' then (k', v) :: d' else (k', v') :: dict_set k v d'
  end.

(** Modelled from the spec: [qiskit.result.Counts], which is not in the source
    tree.  Section 6: "a mapping from bitstring to integer count"; the class
    keeps the dict it is built from, in its order, next to the
    classical-register layout ([memory_slots], [creg_sizes]). *)
Record Counts (V : Type) := mkCounts {
  counts_items : dict V;
  memory_slots : option nat;
  creg_sizes : option (list (string * nat))
}.
Arguments mkCounts {V} _ _ _.
Arguments counts_items {V} _.
Arguments memory_slots {V} _.
Arguments creg_sizes {V} _.

(** ** Arithmetic of the sampling path *)

(** A Python int as a binary number that has not been rounded: mantissa [|z|],
    exponent 0, of any size. *)
Definition spec_of_Z (z : Z) : spec_float :=
  match z with
  | Z0 => S754_zero false
  | Zpos p => S754_finite false p 0
  | Zneg p => S754_finite true p 0
  end.

(** The exact quotient of two ints, rounded once to binary64 (to nearest, ties
    to even): the Standard Library's specification of IEEE division, which
    takes mantissas of any size, applied to the two ints themselves.  The
    result is an infinity when the quotient is too large for a binary64. *)
Definition rounded_quotient (a b : Z) : spec_float :=
  SFdiv prec emax (spec_of_Z a) (spec_of_Z b).

(** The same quotient as a machine float. *)
Definition quotient (a b : Z) : float := SF2Prim (rounded_quotient a b).

(** Python's [a / b] on two ints: [ZeroDivisionError] for a zero divisor,
    [OverflowError] when the rounded quotient does not fit in a float, and the
    exact quotient rounded once otherwise ([0 / -5] is [-0.0]). *)
Definition truediv (a b : Z) : res float :=
  if (b =? 0)%Z then Raise ZeroDivisionError
  else match rounded_quotient a b with
       | S754_infinity _ => Raise OverflowError
       | _ => Ok (quotient a b)
       end.

(** [k[::-1]] *)
Definition reversed (k : string) : string := String.rev k.
Arguments reversed : simpl never.

(** [{k[::-1]: counts[k] / num_shots for k in ks}], one key at a time. *)
Fixpoint reversed_frequencies (ks : list string) (counts : dict Z) (num_shots : Z)
    (acc : dict float) : res (dict float) :=
  match ks with
  | [] => Ok acc
  | k :: ks' =>
      c ← getitem counts k;
      f ← truediv c num_shots;
      reversed_frequencies ks' counts num_shots (dict_set (reversed k) f acc)
  end.

(** The item the comprehension yields for the item [kv] of the counts, when
    the division succeeds. *)
Definition frequency (s : Z) (kv : string * Z) : string * float :=
  (reversed kv.1, quotient kv.2 s).

(** The exact value of a finite binary64 number in units of 2^-1074, the
    smallest positive one; every finite binary64 is a whole number of them. *)
Definition SFscaled (r : spec_float) : Z :=
  match r with
  | S754_finite s m e => ((if s then -1 else 1) * (Z.pos m * 2 ^ (e + 1074)))%Z
  | _ => 0%Z
  end.

Definition SFfinite (r : spec_float) : bool :=
  match r with
  | S754_zero _ | S754_finite _ _ _ => true
  | _ => false
  end.





(** The counts of a run of [s] shots: each lies between 0 and [s]. *)
Definition within_shots (s : Z) (counts : dict Z) : Prop :=
  Forall (λ kv, (0 ≤ kv.2 ≤ s)%Z) counts.

(** No count is larger than the shot count in absolute value. *)
Definition no_larger (s : Z) (counts : dict Z) : Prop :=
  Forall (λ kv, (Z.abs kv.2 ≤ Z.abs s)%Z) counts.

(** The last step of the Standard Library's [binary_round_aux]: the rounded
    mantissa is brought back into the format. *)
Definition finish (sx : bool) (mr e1 : Z) : spec_float :=
  let '(mrs, e) := shr_fexp prec emax mr e1 loc_Exact in
  match shr_m mrs with
  | Z0 => S754_zero sx
  | Zpos m =>
      if (e <=? emax - prec)%Z then S754_finite sx m e else S754_infinity sx
  | Zneg _ => S754_nan
  end.

(** Numeric value of a bitstring, most significant bit leftmost ([int(k, 2)]
    on a string of 0s and 1s; any other character counts as 0). *)
Definition bit_value (c : ascii) : N :=
  if Ascii.eqb c "1"%char then 1%N else 0%N.

Fixpoint binary_value_from (acc : N) (k : string) : N :=
  match k with
  | EmptyString => acc
  | String c k' => binary_value_from (2 * acc + bit_value c)%N k'
  end.

Definition binary_value (k : string) : N := binary_value_from 0%N k.

(** Modelled from the spec: [_sort_phases] of [phase_estimation_result.py],
    which is not in the source tree.  Section 4.2: the "distribution is then
    re-sorted so keys iterate in increasing numeric phase order", with "sort
    key: numeric value of the bit-reversed bitstring".  The sort is stable, as
    Python's is, and rebuilds the dict in sorted key order. *)
Fixpoint insert_phase {V} (kv : string * V) (d : dict V) : dict V :=
  match d with
  | [] => [kv]
  | kv' :: d' =>
      if (binary_value kv'.1 <? binary_value kv.1)%N
      then kv' :: insert_phase kv d'
      else kv :: d
  end.

Definition _sort_phases {V} (phases : dict V) : dict V :=
  foldr insert_phase [] phases.

(** ** What the builder leaves in the store *)

(** The circuit after the three calls of [_add_measurement_if_required] for a
    sampling executor and evaluation width [n]. *)
Definition measured (n : nat) (c : QuantumCircuit) : QuantumCircuit :=
  measure (range 0 n) (range 0 n)
    (barrier (add_register (mkClassicalRegister n "meas") c)).

(** An instruction moved up by [n] qubits. *)
Definition offset (n : nat) (i : Instruction) : Instruction :=
  {| operation := operation i;
     qubits := (λ q, n + q) <$> qubits i;
     clbits := clbits i |}.

(** Every instruction of the circuit acts on the circuit's own qubits. *)
Definition well_formed (c : QuantumCircuit) : Prop :=
  Forall (λ i, Forall (λ q, q < num_qubits c) (qubits i)) (data c).

(** ** The external library *)

(** The numerical side of qiskit that the driver calls and never inspects:
    state vectors, [qiskit.quantum_info.partial_trace], the diagonal of a
    density matrix, and the gates of the library's phase-estimation template
    for a given evaluation width and unitary. *)
Class QiskitLibrary := {
  Statevector : Type;
  DensityMatrix : Type;
  ndarray : Type;
  partial_trace : Statevector → list nat → DensityMatrix;
  probabilities : DensityMatrix → ndarray;
  qpe_gates : nat → QuantumCircuit → list Instruction
}.

(** The value [_add_measurement_if_required] returns: the name [circuit] is
    bound to the module [qiskit.circuit] there. *)
Inductive module := qiskit_circuit.

Section PhaseEstimation.
Context `{!QiskitLibrary}.

(** Modelled from the spec: [qiskit.circuit.library.PhaseEstimation], which is
    not in the source tree.  Section 3: the estimation circuit is "evaluation
    register ⊕ unitary-acted register" before any measurement register is
    added; its gates are the library's. *)
Definition library_PhaseEstimation (num_evaluation_qubits : nat)
    (unitary : QuantumCircuit) : QuantumCircuit :=
  {| num_qubits := num_evaluation_qubits + num_qubits unitary;
     cregs := [];
     data := qpe_gates num_evaluation_qubits unitary |}.

(** Modelled from the spec: [qiskit.result.Result], which is not in the source
    tree, as far as the driver reads it: [results[0].shots], [get_counts()]
    and [get_statevector()].  Section 6: the result "exposes a full amplitude
    vector" or "a mapping from bitstring to integer count plus a total-shots
    count". *)
Record Result := mkResult {
  shots : Z;
  get_counts : Counts Z;
  get_statevector : Statevector
}.

(** Modelled from the spec: [QuantumInstance] and a bare backend, which are
    not in the source tree.  Section 6: the executor "accepts an executable
    circuit description", returns a result or fails with an error of its own,
    and answers the "is this an exact-amplitude executor" flag. *)
Record QuantumInstance := mkQuantumInstance {
  is_statevector : bool;
  execute : QuantumCircuit → string + Result
}.

Record Backend := mkBackend {
  backend_is_statevector : bool;
  backend_run : QuantumCircuit → string + Result
}.

(** Modelled from the spec: [QuantumInstance(backend)], which is not in the
    source tree: the same executor, wrapped. *)
Definition QuantumInstance_of (b : Backend) : QuantumInstance :=
  {| is_statevector := backend_is_statevector b; execute := backend_run b |}.

(** What [_compute_phases] returns: a [numpy.ndarray] or a [Counts]. *)
Inductive Phases :=
| PhasesArray (a : ndarray)
| PhasesCounts (c : Counts float).

(** Modelled from the spec: [PhaseEstimationResult], which is not in the source
    tree.  Section 3: an "immutable record of {number of evaluation qubits,
    ExecutionResult, PhaseDistribution}". *)
Record PhaseEstimationResult := mkPhaseEstimationResult {
  num_evaluation_qubits : nat;
  circuit_result : Result;
  phases : Phases
}.

(** ** The class *)

(** An instance: an attribute that [__init__] did not assign is [None]. *)
Record PhaseEstimation := mkPhaseEstimation {
  _measurements_added : bool;
  _num_evaluation_qubits : option nat;
  _quantum_instance : option QuantumInstance
}.

(** [PhaseEstimation.__init__] (lines 77-95): the width is assigned only when
    it is not [None]; a bare backend is wrapped. *)
Definition __init__ (num_evaluation_qubits : option nat)
    (quantum_instance : option (Backend + QuantumInstance)) : PhaseEstimation :=
  {| _measurements_added := false;
     _num_evaluation_qubits :=
       match num_evaluation_qubits with
       | Some n => Some n
       | None => None
       end;
     _quantum_instance :=
       match quantum_instance with
       | Some (inl backend) => Some (QuantumInstance_of backend)
       | Some (inr qi) => Some qi
       | None => None
       end |}.

(** [self._num_evaluation_qubits].  No method assigns the attribute after
    [__init__], so a method that reads it several times is given one read, at
    the place of the first. *)
Definition self_num_evaluation_qubits (self : PhaseEstimation) : res nat :=
  match _num_evaluation_qubits self with
  | Some n => Ok n
  | None => Raise (AttributeError "_num_evaluation_qubits")
  end.

(** [self._quantum_instance.is_statevector] *)
Definition self_is_statevector (self : PhaseEstimation) : res bool :=
  match _quantum_instance self with
  | Some qi => Ok (is_statevector qi)
  | None => Raise (AttributeError "is_statevector")
  end.

(** [PhaseEstimation._add_measurement_if_required] (lines 122-133): the three
    calls act on the caller's object. *)
Definition _add_measurement_if_required (self : PhaseEstimation)
    (pe_circuit : loc) : M module :=
  statevector ← lift (self_is_statevector self);
  (if negb statevector then
     n ← lift (self_num_evaluation_qubits self);
     let regname := "meas" in
     let creg := mkClassicalRegister n regname in
     mutate pe_circuit (add_register creg);;
     mutate pe_circuit barrier;;
     mutate pe_circuit (measure (range 0 n) (range 0 n))
   else mret ());;
  mret qiskit_circuit.

(** [PhaseEstimation.construct_circuit] (lines 97-120). *)
Definition construct_circuit (self : PhaseEstimation) (unitary : loc)
    (state_preparation : option loc) : M loc :=
  num_evaluation_qubits ← lift (self_num_evaluation_qubits self);
  u ← deref unitary;
  let num_unitary_qubits := num_qubits u in
  pe_circuit ← alloc (library_PhaseEstimation num_evaluation_qubits u);
  match state_preparation with
  | Some sp =>
      prep ← deref sp;
      mutate pe_circuit
        (compose prep
           (range num_evaluation_qubits (num_evaluation_qubits + num_unitary_qubits))
           true)
  | None => mret ()
  end;;
  _add_measurement_if_required self pe_circuit;;
  mret pe_circuit.

(** [PhaseEstimation._compute_phases] (lines 135-184).  [num_unitary_qubits]
    may be [None], the default of [estimate]; adding it to the width is then a
    [TypeError]. *)
Definition _compute_phases (self : PhaseEstimation) (num_unitary_qubits : option nat)
    (circuit_result : Result) : res Phases :=
  statevector ← self_is_statevector self;
  if statevector : bool then
    let state_vec := get_statevector circuit_result in
    n ← self_num_evaluation_qubits self;
    m ← match num_unitary_qubits with
        | Some m => Ok m
        | None => Raise TypeError
        end;
    let evaluation_density_matrix := partial_trace state_vec (range n (n + m)) in
    Ok (PhasesArray (probabilities evaluation_density_matrix))
  else
    let num_shots := shots circuit_result in
    let counts := get_counts circuit_result in
    phases ← reversed_frequencies (keys (counts_items counts))
               (counts_items counts) num_shots [];
    let phases := _sort_phases phases in
    Ok (PhasesCounts
          (mkCounts phases (memory_slots counts) (creg_sizes counts))).

(** What the executor gave, as an outcome: its own errors come back
    unchanged. *)
Definition executor_outcome (o : string + Result) : res Result :=
  match o with
  | inl msg => Raise (ExecutorError msg)
  | inr r => Ok r
  end.

(** [self._quantum_instance.execute(pe_circuit)]: the executor reads the
    circuit and does not change it. *)
Definition self_execute (self : PhaseEstimation) (pe_circuit : loc) : M Result := λ w,
  match _quantum_instance self with
  | None => (Raise (AttributeError "execute"), w)
  | Some qi =>
      match heap w !! pe_circuit with
      | None => (Raise (DanglingReference pe_circuit), w)
      | Some c =>
          (executor_outcome (execute qi c),
           {| heap := heap w; executions := executions w ++ [(pe_circuit, c)] |})
      end
  end.

(** [PhaseEstimation.estimate] (lines 186-232). *)
Definition estimate (self : PhaseEstimation)
    (unitary state_preparation pe_circuit : option loc)
    (num_unitary_qubits : option nat) : M PhaseEstimationResult :=
  num_evaluation_qubits ← lift (self_num_evaluation_qubits self);
  args ←
    match unitary with
    | Some u =>
        match pe_circuit with
        | Some _ =>
            raise (ValueError "Only one of `pe_circuit` and `unitary` may be passed.")
        | None =>
            pe_circuit ← construct_circuit self u state_preparation;
            cu ← deref u;
            mret (pe_circuit, Some (num_qubits cu))
        end
    | None =>
        match pe_circuit with
        | Some pe_circuit =>
            _add_measurement_if_required self pe_circuit;;
            mret (pe_circuit, num_unitary_qubits)
        | None =>
            raise (ValueError "One of `pe_circuit` and `unitary` must be passed.")
        end
    end;
  let '(pe_circuit, num_unitary_qubits) := args in
  circuit_result ← self_execute self pe_circuit;
  phases ← lift (_compute_phases self num_unitary_qubits circuit_result);
  mret (mkPhaseEstimationResult num_evaluation_qubits circuit_result phases).

(** The circuit [construct_circuit] builds from the unitary [u] and the
    optional state preparation [prep], for the executor [qi]. *)
Definition built_circuit (qi : QuantumInstance) (n : nat) (u : QuantumCircuit)
    (prep : option QuantumCircuit) : QuantumCircuit :=
  let template := library_PhaseEstimation n u in
  let prepared :=
    match prep with
    | Some p => compose p (range n (n + num_qubits u)) true template
    | None => template
    end in
  if is_statevector qi then prepared else measured n prepared.

End PhaseEstimation.

(** ** Predicates on outcomes *)

Definition not_ValueError {A} (r : res A) : Prop :=
  ∀ msg, r ≠ Raise (ValueError msg).

Definition never_ValueError {A} (m : M A) : Prop :=
  ∀ w, not_ValueError (m w).1.

(** ** Concrete instances, for running the model *)

(** A library whose numerical objects are qubit lists, and whose template is
    one gate over all qubits. *)
Definition toy_library : QiskitLibrary :=
  {| Statevector := unit;
     DensityMatrix := list nat;
     ndarray := list nat;
     partial_trace := λ _ traced, traced;
     probabilities := λ d, d;
     qpe_gates := λ n u, [mkInstruction (Gate "QPE") (range 0 (n + num_qubits u)) []] |}.

Definition toy_result (s : Z) (counts : dict Z) : @Result toy_library :=
  @mkResult toy_library s (mkCounts counts (Some 2) (Some [("meas", 2)])) tt.

(** A sampling executor that always reports the same counts, and an
    exact-amplitude one. *)
Definition toy_sampler (s : Z) (counts : dict Z) : @QuantumInstance toy_library :=
  @mkQuantumInstance toy_library false (λ _, inr (toy_result s counts)).

Definition toy_simulator : @QuantumInstance toy_library :=
  @mkQuantumInstance toy_library true (λ _, inr (toy_result 1 [])).

Definition identity_unitary : QuantumCircuit :=
  {| num_qubits := 1; cregs := []; data := [mkInstruction (Gate "id") [0] []] |}.

Definition x_preparation : QuantumCircuit :=
  {| num_qubits := 1; cregs := []; data := [mkInstruction (Gate "x") [0] []] |}.

Definition empty_world : world := {| heap := []; executions := [] |}.

Definition observed_counts : dict Z := [("00", 50%Z); ("10", 50%Z)].

(** Three instances of width 2: on a sampling executor, on a statevector
    executor, and one built without a width. *)
Definition sampling_estimator : @PhaseEstimation toy_library :=
  __init__ (Some 2) (Some (inr (toy_sampler 100 observed_counts))).

Definition statevector_estimator : @PhaseEstimation toy_library :=
  __init__ (Some 2) (Some (inr toy_simulator)).

Definition unset_estimator : @PhaseEstimation toy_library :=
  __init__ None (Some (inr toy_simulator)).

(** An instance built with the default [quantum_instance=None], and one whose
    sampling executor always fails. *)
Definition no_executor_estimator : @PhaseEstimation toy_library :=
  __init__ (Some 2) None.

Definition failing_sampler : @QuantumInstance toy_library :=
  @mkQuantumInstance toy_library false (λ _, inl "backend offline").

Definition failing_estimator : @PhaseEstimation toy_library :=
  __init__ (Some 2) (Some (inr failing_sampler)).

Definition two_circuits : world :=
  {| heap := [identity_unitary; x_preparation]; executions := [] |}.

(** ** Which computations can end in [ValueError] *)

Create HintDb value_error.

Lemma not_ValueError_Ok {A} (a : A) : not_ValueError (Ok a).
Proof. intros msg; discriminate. Qed.

Lemma not_ValueError_bind {A B} (r : res A) (f : A → res B) :
  not_ValueError r → (∀ a, not_ValueError (f a)) → not_ValueError (r ≫= f).
Proof.
  intros Hr Hf msg. destruct r as [a|e]; cbn.
  - apply Hf.
  - intros [= ->]. exact (Hr msg eq_refl).
Qed.

Lemma never_ValueError_ret {A} (a : A) : never_ValueError (mret a).
Proof. intros w msg; discriminate. Qed.

Lemma never_ValueError_lift {A} (r : res A) :
  not_ValueError r → never_ValueError (lift r).
Proof. intros Hr w. exact Hr. Qed.

Lemma never_ValueError_bind {A B} (m : M A) (f : A → M B) :
  never_ValueError m → (∀ a, never_ValueError (f a)) → never_ValueError (m ≫= f).
Proof.
  intros Hm Hf w msg. unfold mbind, M_bind.
  specialize (Hm w msg). destruct (m w) as [[a|e] w']; cbn in *.
  - apply Hf.
  - intros [= ->]. exact (Hm eq_refl).
Qed.

Lemma never_ValueError_alloc c : never_ValueError (alloc c).
Proof. intros w msg; discriminate. Qed.

Lemma never_ValueError_deref r : never_ValueError (deref r).
Proof. intros w msg. unfold deref. destruct (heap w !! r); discriminate. Qed.

Lemma never_ValueError_mutate r f : never_ValueError (mutate r f).
Proof. intros w msg. unfold mutate. destruct (heap w !! r); discriminate. Qed.

Lemma not_ValueError_getitem {V} (d : dict V) k : not_ValueError (getitem d k).
Proof. intros msg. unfold getitem. destruct (dict_get k d); discriminate. Qed.

Lemma not_ValueError_truediv a b : not_ValueError (truediv a b).
Proof.
  intros msg. unfold truediv. destruct (b =? 0)%Z; [discriminate|].
  destruct (rounded_quotient a b); discriminate.
Qed.

Lemma not_ValueError_reversed_frequencies ks counts s acc :
  not_ValueError (reversed_frequencies ks counts s acc).
Proof.
  revert acc. induction ks as [|k ks IH]; intros acc; cbn.
  - apply not_ValueError_Ok.
  - apply not_ValueError_bind; [apply not_ValueError_getitem|]. intros c.
    apply not_ValueError_bind; [apply not_ValueError_truediv|]. intros f.
    apply IH.
Qed.

#[local] Hint Resolve not_ValueError_Ok not_ValueError_getitem not_ValueError_truediv
  not_ValueError_reversed_frequencies never_ValueError_ret never_ValueError_alloc
  never_ValueError_deref never_ValueError_mutate : value_error.

Section ArgumentCheck.
Context `{!QiskitLibrary}.

Lemma not_ValueError_num_evaluation_qubits self :
  not_ValueError (self_num_evaluation_qubits self).
Proof.
  intros msg. unfold self_num_evaluation_qubits.
  destruct (_num_evaluation_qubits self); discriminate.
Qed.

Lemma not_ValueError_is_statevector self :
  not_ValueError (self_is_statevector self).
Proof.
  intros msg. unfold self_is_statevector.
  destruct (_quantum_instance self); discriminate.
Qed.

Lemma never_ValueError_add_measurement self pe :
  never_ValueError (_add_measurement_if_required self pe).
Proof.
  unfold _add_measurement_if_required.
  apply never_ValueError_bind.
  { apply never_ValueError_lift, not_ValueError_is_statevector. }
  intros sv. apply never_ValueError_bind; [|auto with value_error].
  destruct sv; cbn; [auto with value_error|].
  apply never_ValueError_bind.
  { apply never_ValueError_lift, not_ValueError_num_evaluation_qubits. }
  intros n. repeat (apply never_ValueError_bind; [auto with value_error|intros _]).
  auto with value_error.
Qed.

Lemma never_ValueError_construct_circuit self u sp :
  never_ValueError (construct_circuit self u sp).
Proof.
  unfold construct_circuit.
  apply never_ValueError_bind.
  { apply never_ValueError_lift, not_ValueError_num_evaluation_qubits. }
  intros n. apply never_ValueError_bind; [auto with value_error|]. intros cu.
  apply never_ValueError_bind; [auto with value_error|]. intros pe.
  apply never_ValueError_bind.
  { destruct sp; [|auto with value_error].
    apply never_ValueError_bind; auto with value_error. }
  intros _. apply never_ValueError_bind; [apply never_ValueError_add_measurement|].
  auto with value_error.
Qed.

Lemma never_ValueError_execute self pe : never_ValueError (self_execute self pe).
Proof.
  intros w msg. unfold self_execute.
  destruct (_quantum_instance self) as [qi|]; [|discriminate].
  destruct (heap w !! pe) as [c|]; [|discriminate].
  cbn. destruct (execute qi c); discriminate.
Qed.

Lemma not_ValueError_compute_phases self m r :
  not_ValueError (_compute_phases self m r).
Proof.
  unfold _compute_phases.
  apply not_ValueError_bind; [apply not_ValueError_is_statevector|].
  intros [|].
  - apply not_ValueError_bind; [apply not_ValueError_num_evaluation_qubits|].
    intros n. apply not_ValueError_bind; [|auto with value_error].
    intros msg. destruct m; discriminate.
  - apply not_ValueError_bind; auto with value_error.
Qed.

(** What is left of [estimate] once the circuit and the width are chosen. *)
Lemma never_ValueError_run self n pe m :
  never_ValueError
    (circuit_result ← self_execute self pe;
     phases ← lift (_compute_phases self m circuit_result);
     mret (mkPhaseEstimationResult n circuit_result phases)).
Proof.
  apply never_ValueError_bind; [apply never_ValueError_execute|]. intros r.
  apply never_ValueError_bind; [|auto with value_error].
  apply never_ValueError_lift, not_ValueError_compute_phases.
Qed.

Lemma estimate_unset self u sp pe m w :
  _num_evaluation_qubits self = None →
  estimate self u sp pe m w = (Raise (AttributeError "_num_evaluation_qubits"), w).
Proof.
  intros Hn. unfold estimate, self_num_evaluation_qubits. rewrite Hn. reflexivity.
Qed.

Lemma estimate_both self n u sp pe m w :
  _num_evaluation_qubits self = Some n →
  estimate self (Some u) sp (Some pe) m w
  = (Raise (ValueError "Only one of `pe_circuit` and `unitary` may be passed."), w).
Proof.
  intros Hn. unfold estimate, self_num_evaluation_qubits. rewrite Hn. reflexivity.
Qed.

Lemma estimate_neither self n sp m w :
  _num_evaluation_qubits self = Some n →
  estimate self None sp None m w
  = (Raise (ValueError "One of `pe_circuit` and `unitary` must be passed."), w).
Proof.
  intros Hn. unfold estimate, self_num_evaluation_qubits. rewrite Hn. reflexivity.
Qed.

Lemma estimate_unitary_never_ValueError self u sp m :
  never_ValueError (estimate self (Some u) sp None m).
Proof.
  unfold estimate.
  apply never_ValueError_bind.
  { apply never_ValueError_lift, not_ValueError_num_evaluation_qubits. }
  intros n. apply never_ValueError_bind.
  - apply never_ValueError_bind; [apply never_ValueError_construct_circuit|].
    intros c. apply never_ValueError_bind; auto with value_error.
  - intros [c k]. apply never_ValueError_run.
Qed.

Lemma estimate_pe_circuit_never_ValueError self sp pe m :
  never_ValueError (estimate self None sp (Some pe) m).
Proof.
  unfold estimate.
  apply never_ValueError_bind.
  { apply never_ValueError_lift, not_ValueError_num_evaluation_qubits. }
  intros n. apply never_ValueError_bind.
  - apply never_ValueError_bind; [apply never_ValueError_add_measurement|].
    auto with value_error.
  - intros [c k]. apply never_ValueError_run.
Qed.

End ArgumentCheck.

(** ** The argument check of [estimate] *)

Section Estimate.
Context `{!QiskitLibrary}.

(** C1, as amended: on an instance whose evaluation width was assigned,
    [estimate] with both [unitary] and [pe_circuit] ends in [ValueError] with
    the message "Only one of `pe_circuit` and `unitary` may be passed.", with
    neither it ends in [ValueError] with the message "One of `pe_circuit` and
    `unitary` must be passed.", and with exactly one of them it does not end in
    a [ValueError] at all. *)
Theorem estimate_argument_check (self : PhaseEstimation) (n : nat)
    (unitary state_preparation pe_circuit : option loc)
    (num_unitary_qubits : option nat) (w : world) :
  _num_evaluation_qubits self = Some n →
  (is_Some unitary → is_Some pe_circuit →
     estimate self unitary state_preparation pe_circuit num_unitary_qubits w
     = (Raise (ValueError "Only one of `pe_circuit` and `unitary` may be passed."), w))
  ∧ (unitary = None → pe_circuit = None →
     estimate self unitary state_preparation pe_circuit num_unitary_qubits w
     = (Raise (ValueError "One of `pe_circuit` and `unitary` must be passed."), w))
  ∧ ((is_Some unitary ∧ pe_circuit = None) ∨ (unitary = None ∧ is_Some pe_circuit) →
     not_ValueError
       (estimate self unitary state_preparation pe_circuit num_unitary_qubits w).1).
Proof.
  intros Hn. split; [|split].
  - intros [u ->] [pe ->]. by eapply estimate_both.
  - intros -> ->. by eapply estimate_neither.
  - intros [[[u ->] ->]|[-> [pe ->]]].
    + apply estimate_unitary_never_ValueError.
    + apply estimate_pe_circuit_never_ValueError.
Qed.

(** C8: whenever [estimate] ends in [ValueError], the caller passed both or
    neither of [unitary] and [pe_circuit], and the store after the call is the
    store before it: no circuit was built or changed and the executor was not
    called. *)
Theorem estimate_ValueError_atomic (self : PhaseEstimation)
    (unitary state_preparation pe_circuit : option loc)
    (num_unitary_qubits : option nat) (w : world) (msg : string) :
  (estimate self unitary state_preparation pe_circuit num_unitary_qubits w).1
    = Raise (ValueError msg) →
  (is_Some unitary ↔ is_Some pe_circuit)
  ∧ heap (estimate self unitary state_preparation pe_circuit num_unitary_qubits w).2
    = heap w
  ∧ executions (estimate self unitary state_preparation pe_circuit num_unitary_qubits w).2
    = executions w.
Proof.
  intros Herr.
  destruct (_num_evaluation_qubits self) as [n|] eqn:Hn.
  - destruct unitary as [u|], pe_circuit as [pe|].
    + rewrite (estimate_both _ n) by done. split; [done|]. done.
    + by destruct (estimate_unitary_never_ValueError self u state_preparation
                     num_unitary_qubits w msg).
    + by destruct (estimate_pe_circuit_never_ValueError self state_preparation pe
                     num_unitary_qubits w msg).
    + rewrite (estimate_neither _ n) by done. split; [|done].
      split; intros [? [=]].
  - rewrite estimate_unset in Herr by done. discriminate.
Qed.

(** C10: an instance built with [num_evaluation_qubits = None] has no
    evaluation width, and on it [construct_circuit] and [estimate] end in
    [AttributeError] on [_num_evaluation_qubits] for every argument, before
    anything is built or run; built with a value, the instance has that width. *)
Theorem unset_width_fails
    (quantum_instance : option (Backend + QuantumInstance)) :
  let self := __init__ None quantum_instance in
  _num_evaluation_qubits self = None
  ∧ (∀ unitary state_preparation w,
       construct_circuit self unitary state_preparation w
       = (Raise (AttributeError "_num_evaluation_qubits"), w))
  ∧ (∀ unitary state_preparation pe_circuit num_unitary_qubits w,
       estimate self unitary state_preparation pe_circuit num_unitary_qubits w
       = (Raise (AttributeError "_num_evaluation_qubits"), w))
  ∧ (∀ n, _num_evaluation_qubits (__init__ (Some n) quantum_instance) = Some n).
Proof.
  cbn. split; [done|]. split; [done|]. split; [|done].
  intros. by apply estimate_unset.
Qed.

End Estimate.

(** ** The circuit builder *)

Lemma lookup_snoc_new {A} (l : list A) (x : A) : (l ++ [x]) !! length l = Some x.
Proof. by apply list_lookup_middle. Qed.

Lemma insert_snoc_new {A} (l : list A) (x y : A) :
  <[length l := y]> (l ++ [x]) = l ++ [y].
Proof. by rewrite insert_app_r_alt, Nat.sub_diag. Qed.

Lemma mutate_run r f c w :
  heap w !! r = Some c →
  mutate r f w = (Ok (), {| heap := <[r := f c]> (heap w); executions := executions w |}).
Proof. intros Hr. unfold mutate. by rewrite Hr. Qed.

Lemma measure_range n c :
  data (measure (range 0 n) (range 0 n) c)
  = data c ++ ((λ i, mkInstruction Measure [i] [i]) <$> seq 0 n).
Proof. unfold measure, range. cbn. by rewrite zip_with_diag, Nat.sub_0_r. Qed.

Lemma place_range n m i :
  Forall (λ q, q < m) (qubits i) → place (range n (n + m)) i = offset n i.
Proof.
  intros Hi. unfold place, offset, range. f_equal.
  replace (n + m - n) with m by lia.
  apply list_fmap_ext. intros k q Hq.
  apply seq_nth. eapply Forall_lookup_1 in Hi; eauto.
Qed.

Section Builder.
Context `{!QiskitLibrary}.

Lemma add_measurement_statevector self qi pe w :
  _quantum_instance self = Some qi → is_statevector qi = true →
  _add_measurement_if_required self pe w = (Ok qiskit_circuit, w).
Proof.
  intros Hqi Hsv. unfold _add_measurement_if_required, self_is_statevector.
  rewrite Hqi, Hsv. reflexivity.
Qed.

Lemma add_measurement_sampling self qi n pe c w :
  _quantum_instance self = Some qi → is_statevector qi = false →
  _num_evaluation_qubits self = Some n → heap w !! pe = Some c →
  _add_measurement_if_required self pe w
  = (Ok qiskit_circuit,
     {| heap := <[pe := measured n c]> (heap w); executions := executions w |}).
Proof.
  intros Hqi Hsv Hn Hpe.
  pose proof (lookup_lt_Some _ _ _ Hpe) as Hlt.
  unfold _add_measurement_if_required, self_is_statevector, self_num_evaluation_qubits.
  rewrite Hqi, Hsv, Hn. unfold mbind, M_bind, lift. cbn.
  rewrite (mutate_run _ _ c) by done.
  erewrite mutate_run by (cbn; by apply list_lookup_insert_eq).
  erewrite mutate_run by (cbn; apply list_lookup_insert_eq; by rewrite length_insert).
  cbn. by rewrite !list_insert_insert_eq.
Qed.

Lemma add_measurement_no_instance self pe w :
  _quantum_instance self = None →
  _add_measurement_if_required self pe w = (Raise (AttributeError "is_statevector"), w).
Proof.
  intros Hqi. unfold _add_measurement_if_required, self_is_statevector.
  by rewrite Hqi.
Qed.

Lemma add_measurement_dangling self qi n pe w :
  _quantum_instance self = Some qi → is_statevector qi = false →
  _num_evaluation_qubits self = Some n → heap w !! pe = None →
  _add_measurement_if_required self pe w = (Raise (DanglingReference pe), w).
Proof.
  intros Hqi Hsv Hn Hpe.
  unfold _add_measurement_if_required, self_is_statevector, self_num_evaluation_qubits.
  rewrite Hqi, Hsv, Hn. unfold mbind, M_bind, lift, mutate. cbn. by rewrite Hpe.
Qed.

(** C6: on an instance with an executor and evaluation width [n], for a
    sampling executor [_add_measurement_if_required] changes the circuit in
    place by adding a classical register of width [n] ("meas") after the
    existing ones, then a barrier over all qubits, then the measurements of
    qubits 0 .. n-1 in that order (qubit [i] into classical bit [i]), and
    touches nothing else; for a statevector executor the store is unchanged. *)
Theorem add_measurement_if_required_effect (self : PhaseEstimation)
    (qi : QuantumInstance) (n : nat) (pe_circuit : loc) (c : QuantumCircuit)
    (w : world) :
  _quantum_instance self = Some qi →
  _num_evaluation_qubits self = Some n →
  heap w !! pe_circuit = Some c →
  (is_statevector qi = false →
     ∃ c',
       _add_measurement_if_required self pe_circuit w
       = (Ok qiskit_circuit,
          {| heap := <[pe_circuit := c']> (heap w); executions := executions w |})
       ∧ num_qubits c' = num_qubits c
       ∧ cregs c' = cregs c ++ [mkClassicalRegister n "meas"]
       ∧ data c'
         = data c
           ++ [mkInstruction Barrier (seq 0 (num_qubits c)) []]
           ++ ((λ i, mkInstruction Measure [i] [i]) <$> seq 0 n))
  ∧ (is_statevector qi = true →
     _add_measurement_if_required self pe_circuit w = (Ok qiskit_circuit, w)).
Proof.
  intros Hqi Hn Hpe. split; intros Hsv.
  - exists (measured n c). split; [by eapply add_measurement_sampling|].
    split; [done|]. split; [done|].
    unfold measured. rewrite measure_range. cbn.
    unfold range. by rewrite Nat.sub_0_r, <- app_assoc.
  - by eapply add_measurement_statevector.
Qed.

End Builder.

Lemma bind_Ok {A B} (m : M A) (f : A → M B) w a w' :
  m w = (Ok a, w') → (m ≫= f) w = f a w'.
Proof. intros Hm. unfold mbind, M_bind. by rewrite Hm. Qed.

Lemma bind_Raise {A B} (m : M A) (f : A → M B) w e w' :
  m w = (Raise e, w') → (m ≫= f) w = (Raise e, w').
Proof. intros Hm. unfold mbind, M_bind. by rewrite Hm. Qed.

Section ConstructCircuit.
Context `{!QiskitLibrary}.

(** The builder, run on a store that holds its arguments. *)
Lemma construct_circuit_run self qi n u cu sp w :
  _quantum_instance self = Some qi →
  _num_evaluation_qubits self = Some n →
  heap w !! u = Some cu →
  (∀ r, sp = Some r → is_Some (heap w !! r)) →
  construct_circuit self u sp w
  = (Ok (length (heap w)),
     {| heap := heap w ++ [built_circuit qi n cu (sp ≫= (heap w !!.))];
        executions := executions w |}).
Proof.
  intros Hqi Hn Hu Hsp.
  unfold construct_circuit, self_num_evaluation_qubits. rewrite Hn.
  erewrite bind_Ok by reflexivity.
  erewrite bind_Ok by (unfold deref; by rewrite Hu).
  erewrite bind_Ok by reflexivity.
  set (t := library_PhaseEstimation n cu).
  set (prepared := match sp ≫= (heap w !!.) with
                   | Some p => compose p (range n (n + num_qubits cu)) true t
                   | None => t
                   end).
  erewrite (bind_Ok _ _ _ ()
              {| heap := heap w ++ [prepared]; executions := executions w |}).
  2:{ destruct sp as [r|]; [|done].
      destruct (Hsp r eq_refl) as [p Hp].
      erewrite bind_Ok.
      2:{ unfold deref. cbn. rewrite lookup_app_l by by eapply lookup_lt_Some.
          by rewrite Hp. }
      erewrite mutate_run by (cbn; apply lookup_snoc_new).
      cbn. rewrite insert_snoc_new. subst prepared. cbn. by rewrite Hp. }
  unfold built_circuit. fold t. fold prepared.
  destruct (is_statevector qi) eqn:Hsv.
  - erewrite bind_Ok by by eapply add_measurement_statevector. done.
  - erewrite bind_Ok.
    2:{ eapply add_measurement_sampling; [done..|]. cbn. apply lookup_snoc_new. }
    cbn. by rewrite insert_snoc_new.
Qed.

(** A successful run of the builder: the instance was complete, the unitary
    was in the store, and the store has grown by one circuit, the one
    returned. *)
Lemma construct_circuit_inv self u sp w pe w1 :
  construct_circuit self u sp w = (Ok pe, w1) →
  ∃ qi n cu c,
    _quantum_instance self = Some qi
    ∧ _num_evaluation_qubits self = Some n
    ∧ heap w !! u = Some cu
    ∧ pe = length (heap w)
    ∧ w1 = {| heap := heap w ++ [c]; executions := executions w |}.
Proof.
  unfold construct_circuit, self_num_evaluation_qubits.
  destruct (_num_evaluation_qubits self) as [n|] eqn:Hn; [|discriminate].
  erewrite bind_Ok by reflexivity.
  destruct (heap w !! u) as [cu|] eqn:Hu.
  2:{ erewrite bind_Raise by (unfold deref; by rewrite Hu). discriminate. }
  erewrite bind_Ok by (unfold deref; by rewrite Hu).
  erewrite bind_Ok by reflexivity.
  set (t := library_PhaseEstimation n cu).
  assert (∃ r c', (match sp with
           | Some sp0 =>
               prep ← deref sp0;
               mutate (length (heap w))
                 (compose prep (range n (n + num_qubits cu)) true)
           | None => mret ()
           end) {| heap := heap w ++ [t]; executions := executions w |}
          = (r, {| heap := heap w ++ [c']; executions := executions w |}))
    as (r & prepared & Hr).
  { destruct sp as [r|]; [|by exists (Ok ()), t].
    destruct ((heap w ++ [t]) !! r) as [p|] eqn:Hp.
    - exists (Ok ()). eexists.
      erewrite bind_Ok by (unfold deref; cbn; by rewrite Hp).
      erewrite mutate_run by (cbn; apply lookup_snoc_new).
      cbn. by rewrite insert_snoc_new.
    - eexists (Raise _), t.
      erewrite bind_Raise by (unfold deref; cbn; by rewrite Hp). done. }
  destruct r as [[]|e].
  2:{ erewrite bind_Raise by exact Hr. discriminate. }
  erewrite bind_Ok by exact Hr. clear Hr.
  destruct (_quantum_instance self) as [qi|] eqn:Hqi.
  2:{ erewrite bind_Raise by by eapply add_measurement_no_instance. discriminate. }
  destruct (is_statevector qi) eqn:Hsv.
  - erewrite bind_Ok by by eapply add_measurement_statevector.
    intros [= <- <-]. by exists qi, n, cu, prepared.
  - erewrite bind_Ok.
    2:{ eapply add_measurement_sampling; [done..|]. cbn. apply lookup_snoc_new. }
    cbn. rewrite insert_snoc_new.
    intros [= <- <-]. by exists qi, n, cu, (measured n prepared).
Qed.

End ConstructCircuit.

(** ** [estimate], step by step *)

Section EstimateRun.
Context `{!QiskitLibrary}.

(** Running and post-processing, once the circuit and the width are chosen. *)
Lemma execute_and_package self qi n pe c m w :
  _quantum_instance self = Some qi →
  heap w !! pe = Some c →
  (circuit_result ← self_execute self pe;
   phases ← lift (_compute_phases self m circuit_result);
   mret (mkPhaseEstimationResult n circuit_result phases)) w
  = (r ← executor_outcome (execute qi c);
     phases ← _compute_phases self m r;
     Ok (mkPhaseEstimationResult n r phases),
     {| heap := heap w; executions := executions w ++ [(pe, c)] |}).
Proof.
  intros Hqi Hpe. unfold mbind at 1, M_bind, self_execute.
  rewrite Hqi, Hpe. destruct (executor_outcome (execute qi c)) as [r|e]; [|done].
  cbn. unfold mbind, M_bind, lift.
  by destruct (_compute_phases self m r).
Qed.

Lemma execute_and_package_dangling self n pe m w :
  heap w !! pe = None →
  ∃ e, (circuit_result ← self_execute self pe;
        phases ← lift (_compute_phases self m circuit_result);
        mret (mkPhaseEstimationResult n circuit_result phases)) w
       = (Raise e, w).
Proof.
  intros Hpe. unfold mbind at 1, M_bind, self_execute. rewrite Hpe.
  destruct (_quantum_instance self); eauto.
Qed.

(** [estimate] from a unitary, after a successful build. *)
Lemma estimate_unitary_run self u sp m w pe w1 :
  construct_circuit self u sp w = (Ok pe, w1) →
  ∃ qi n cu c,
    _quantum_instance self = Some qi
    ∧ _num_evaluation_qubits self = Some n
    ∧ heap w !! u = Some cu
    ∧ pe = length (heap w)
    ∧ w1 = {| heap := heap w ++ [c]; executions := executions w |}
    ∧ estimate self (Some u) sp None m w
      = (r ← executor_outcome (execute qi c);
         phases ← _compute_phases self (Some (num_qubits cu)) r;
         Ok (mkPhaseEstimationResult n r phases),
         {| heap := heap w1; executions := executions w1 ++ [(pe, c)] |}).
Proof.
  intros Hc.
  destruct (construct_circuit_inv _ _ _ _ _ _ Hc)
    as (qi & n & cu & c & Hqi & Hn & Hu & -> & ->).
  exists qi, n, cu, c. do 5 (split; [done|]).
  unfold estimate, self_num_evaluation_qubits. rewrite Hn.
  erewrite bind_Ok by reflexivity.
  erewrite bind_Ok.
  2:{ erewrite bind_Ok by exact Hc.
      erewrite bind_Ok; [reflexivity|].
      unfold deref. cbn. rewrite lookup_app_l by by eapply lookup_lt_Some.
      by rewrite Hu. }
  cbn beta iota.
  erewrite execute_and_package; [done..|]. cbn. apply lookup_snoc_new.
Qed.

Lemma estimate_unitary_build_fails self u sp m w e w1 :
  construct_circuit self u sp w = (Raise e, w1) →
  estimate self (Some u) sp None m w = (Raise e, w1).
Proof.
  intros Hc. unfold estimate.
  destruct (self_num_evaluation_qubits self) as [n|e'] eqn:Hn.
  - erewrite bind_Ok by reflexivity.
    erewrite bind_Raise; [done|]. by erewrite bind_Raise.
  - unfold construct_circuit in Hc. rewrite Hn in Hc.
    erewrite bind_Raise in Hc by reflexivity. injection Hc as <- <-.
    by erewrite bind_Raise.
Qed.

(** [estimate] on a circuit of the caller, when it succeeds. *)
Lemma estimate_pe_circuit_inv self sp pe m w result w' :
  estimate self None sp (Some pe) m w = (Ok result, w') →
  ∃ qi n c,
    _quantum_instance self = Some qi
    ∧ _num_evaluation_qubits self = Some n
    ∧ heap w !! pe = Some c
    ∧ let c' := if is_statevector qi then c else measured n c in
      heap w' = <[pe := c']> (heap w)
      ∧ executions w' = executions w ++ [(pe, c')].
Proof.
  unfold estimate, self_num_evaluation_qubits.
  destruct (_num_evaluation_qubits self) as [n|] eqn:Hn; [|discriminate].
  erewrite bind_Ok by reflexivity.
  destruct (_quantum_instance self) as [qi|] eqn:Hqi.
  2:{ erewrite bind_Raise; [discriminate|].
      erewrite bind_Raise; [done|]. by eapply add_measurement_no_instance. }
  destruct (heap w !! pe) as [c|] eqn:Hpe.
  - destruct (is_statevector qi) eqn:Hsv.
    + erewrite bind_Ok.
      2:{ erewrite bind_Ok by by eapply add_measurement_statevector. reflexivity. }
      cbn beta iota. erewrite execute_and_package by done.
      intros [= _ <-]. exists qi, n, c. rewrite Hsv. cbn.
      by rewrite list_insert_id.
    + erewrite bind_Ok.
      2:{ erewrite bind_Ok by by eapply add_measurement_sampling. reflexivity. }
      cbn beta iota. erewrite execute_and_package; [|done|].
      2:{ cbn. apply list_lookup_insert_eq. by eapply lookup_lt_Some. }
      intros [= _ <-]. exists qi, n, c. by rewrite Hsv.
  - destruct (is_statevector qi) eqn:Hsv.
    + erewrite bind_Ok.
      2:{ erewrite bind_Ok by by eapply add_measurement_statevector. reflexivity. }
      cbn beta iota.
      destruct (execute_and_package_dangling self n pe m w Hpe) as [e ->].
      discriminate.
    + erewrite bind_Raise; [discriminate|].
      erewrite bind_Raise; [done|]. by eapply add_measurement_dangling.
Qed.

End EstimateRun.

(** ** The claims about the builder and the store *)

Section StoreEffects.
Context `{!QiskitLibrary}.

(** C4: when [estimate] is given a unitary and the builder succeeds on it, the
    circuit handed to the executor is the one [construct_circuit(unitary,
    state_preparation)] returned, as the builder left it, and the width given
    to the post-processor is the unitary's qubit count, whatever
    [num_unitary_qubits] the caller passed. *)
Theorem estimate_unitary_uses_built_circuit (self : PhaseEstimation)
    (unitary : loc) (state_preparation : option loc) (pe_circuit : loc)
    (w w1 : world) :
  construct_circuit self unitary state_preparation w = (Ok pe_circuit, w1) →
  ∃ qi n cu c,
    _quantum_instance self = Some qi
    ∧ _num_evaluation_qubits self = Some n
    ∧ heap w !! unitary = Some cu
    ∧ heap w1 !! pe_circuit = Some c
    ∧ ∀ num_unitary_qubits : option nat,
        estimate self (Some unitary) state_preparation None num_unitary_qubits w
        = (r ← executor_outcome (execute qi c);
           phases ← _compute_phases self (Some (num_qubits cu)) r;
           Ok (mkPhaseEstimationResult n r phases),
           {| heap := heap w1; executions := executions w1 ++ [(pe_circuit, c)] |}).
Proof.
  intros Hc.
  destruct (estimate_unitary_run self unitary state_preparation None w _ _ Hc)
    as (qi & n & cu & c & Hqi & Hn & Hu & Hpe & Hw1 & _).
  exists qi, n, cu, c. do 3 (split; [done|]). split.
  { subst. cbn. apply lookup_snoc_new. }
  intros m.
  destruct (estimate_unitary_run self unitary state_preparation m w _ _ Hc)
    as (qi' & n' & cu' & c' & Hqi' & Hn' & Hu' & _ & Hw1' & ->).
  assert (c' = c) as ->.
  { rewrite Hw1 in Hw1'. injection Hw1' as Heq. by apply app_inj_tail in Heq as [_ ?]. }
  rewrite Hqi in Hqi'. rewrite Hn in Hn'. rewrite Hu in Hu'.
  by injection Hqi' as <-; injection Hn' as <-; injection Hu' as <-.
Qed.

(** C5: for a state preparation with as many qubits as the unitary, acting on
    its own qubits only, [construct_circuit] allocates a circuit whose
    instructions are the state preparation's moved up by the evaluation width,
    then the template's gates, then the measurement part if the executor
    samples; every moved instruction acts inside
    [num_evaluation_qubits, num_evaluation_qubits + num_unitary_qubits). *)
Theorem construct_circuit_state_preparation (self : PhaseEstimation)
    (qi : QuantumInstance) (n : nat) (unitary state_preparation : loc)
    (cu prep : QuantumCircuit) (w : world) :
  _quantum_instance self = Some qi →
  _num_evaluation_qubits self = Some n →
  heap w !! unitary = Some cu →
  heap w !! state_preparation = Some prep →
  num_qubits prep = num_qubits cu →
  well_formed prep →
  ∃ c,
    construct_circuit self unitary (Some state_preparation) w
    = (Ok (length (heap w)),
       {| heap := heap w ++ [c]; executions := executions w |})
    ∧ data c
      = (offset n <$> data prep)
        ++ qpe_gates n cu
        ++ (if is_statevector qi then []
            else mkInstruction Barrier (seq 0 (n + num_qubits cu)) []
                 :: ((λ i, mkInstruction Measure [i] [i]) <$> seq 0 n))
    ∧ Forall (λ i, Forall (λ q, n ≤ q < n + num_qubits cu) (qubits i))
        (offset n <$> data prep).
Proof.
  intros Hqi Hn Hu Hsp Hwidth Hwf.
  eexists. split; [|split].
  - erewrite construct_circuit_run; [reflexivity|done..|].
    intros r [= <-]. by rewrite Hsp.
  - cbn. rewrite Hsp. unfold built_circuit.
    assert (place (range n (n + num_qubits cu)) <$> data prep
            = offset n <$> data prep) as Hplace.
    { apply list_fmap_ext. intros k i Hi. apply place_range.
      rewrite <- Hwidth. eapply Forall_lookup_1 in Hwf; eauto. }
    destruct (is_statevector qi).
    + cbn. by rewrite Hplace, app_nil_r.
    + unfold measured. rewrite measure_range. cbn. unfold range in *.
      rewrite Hplace, Nat.sub_0_r, <- !app_assoc. done.
  - apply Forall_fmap. eapply Forall_impl; [exact Hwf|].
    intros i Hi. cbn. apply Forall_fmap. eapply Forall_impl; [exact Hi|].
    intros q Hq. cbn in *. lia.
Qed.

(** C9, as amended: a successful [estimate] from a unitary allocates one new
    circuit, hands that one to the executor and leaves every circuit that was
    in the store as it was; a successful [estimate] on a caller's [pe_circuit]
    allocates nothing, leaves the store as it was under a statevector executor,
    and under a sampling executor replaces the caller's circuit, in place, by
    the same circuit with the measurement part added, changing no other
    circuit. *)
Theorem estimate_store_effect (self : PhaseEstimation)
    (unitary state_preparation pe_circuit : option loc)
    (num_unitary_qubits : option nat) (w w' : world)
    (result : PhaseEstimationResult) :
  estimate self unitary state_preparation pe_circuit num_unitary_qubits w
    = (Ok result, w') →
  match unitary, pe_circuit with
  | Some u, None =>
      ∃ c, heap w' = heap w ++ [c]
           ∧ executions w' = executions w ++ [(length (heap w), c)]
  | None, Some pe =>
      ∃ qi n c,
        _quantum_instance self = Some qi
        ∧ _num_evaluation_qubits self = Some n
        ∧ heap w !! pe = Some c
        ∧ (is_statevector qi = true → heap w' = heap w)
        ∧ (is_statevector qi = false →
             heap w' = <[pe := measured n c]> (heap w)
             ∧ ∀ r, r ≠ pe → heap w' !! r = heap w !! r)
  | _, _ => False
  end.
Proof.
  intros He. destruct unitary as [u|], pe_circuit as [pe|].
  - destruct (_num_evaluation_qubits self) as [n|] eqn:Hn.
    + by rewrite (estimate_both _ n) in He.
    + by rewrite estimate_unset in He.
  - destruct (construct_circuit self u state_preparation w) as [[c|e] w1] eqn:Hc.
    + destruct (estimate_unitary_run self u state_preparation num_unitary_qubits
                  w _ _ Hc)
        as (qi & n & cu & c' & _ & _ & _ & -> & -> & Hrun).
      rewrite Hrun in He. injection He as _ <-. by exists c'.
    + by rewrite (estimate_unitary_build_fails _ _ _ _ _ _ _ Hc) in He.
  - destruct (estimate_pe_circuit_inv _ _ _ _ _ _ _ He)
      as (qi & n & c & Hqi & Hn & Hpe & Hheap & _).
    exists qi, n, c. do 3 (split; [done|]). split; intros Hsv.
    + rewrite Hsv in Hheap. rewrite Hheap. by apply list_insert_id.
    + rewrite Hsv in Hheap. split; [done|].
      intros r Hr. rewrite Hheap. by apply list_lookup_insert_ne.
  - destruct (_num_evaluation_qubits self) as [n|] eqn:Hn.
    + by rewrite (estimate_neither _ n) in He.
    + by rewrite estimate_unset in He.
Qed.

End StoreEffects.

(** ** The rounded quotient

    The Standard Library specifies binary64 division ([SFdiv]) and leaves its
    properties to Flocq; what the post-processor needs is proved here from the
    definition: for [0 < p <= q] the quotient is a valid finite binary64, and
    it is within 2^-52 of [p / q]. *)

Section RoundedQuotient.
Local Open Scope Z_scope.

Lemma fexp_eq x : fexp prec emax x = Z.max (x - 53) (-1074).
Proof. reflexivity. Qed.

Lemma digits2_pos_size p : digits2_pos p = Pos.size p.
Proof. induction p; cbn; by f_equal. Qed.

Lemma Zdigits2_log2 m : 0 < m → Zdigits2 m = Z.log2 m + 1.
Proof.
  destruct m as [|p|p]; try lia. intros _. cbn. rewrite digits2_pos_size.
  destruct p; cbn; lia.
Qed.

Lemma Zdigits2_bounds m : 0 < m → 2 ^ (Zdigits2 m - 1) ≤ m < 2 ^ Zdigits2 m.
Proof.
  intros Hm. rewrite Zdigits2_log2 by done.
  replace (Z.log2 m + 1 - 1) with (Z.log2 m) by lia.
  apply Z.log2_spec. done.
Qed.

Lemma Zdigits2_unique m k : 0 < m → 2 ^ (k - 1) ≤ m < 2 ^ k → Zdigits2 m = k.
Proof.
  intros Hm Hk. rewrite Zdigits2_log2 by done.
  assert (0 ≤ k - 1).
  { destruct (Z.le_gt_cases 0 (k - 1)) as [|Hneg]; [done|].
    destruct (Z.le_gt_cases 0 k) as [|Hk0].
    - assert (k = 0) as -> by lia. cbn in Hk. lia.
    - rewrite (Z.pow_neg_r 2 k) in Hk by lia. lia. }
  rewrite (Z.log2_unique m (k - 1)); [lia|done|].
  by replace (Z.succ (k - 1)) with k by lia.
Qed.

Lemma Zdigits2_nonneg m : 0 ≤ Zdigits2 m.
Proof. destruct m; cbn; lia. Qed.

Lemma Zdigits2_pos m : 0 < m → 1 ≤ Zdigits2 m.
Proof.
  intros Hm. rewrite Zdigits2_log2 by done. pose proof (Z.log2_nonneg m). lia.
Qed.

Lemma Zdigits2_le m k : 0 ≤ k → 0 ≤ m < 2 ^ k → Zdigits2 m ≤ k.
Proof.
  intros Hk [Hm Hlt]. destruct (Z.eq_dec m 0) as [->|Hne]; [done|].
  rewrite Zdigits2_log2 by lia.
  assert (Z.log2 m < k); [|lia]. apply Z.log2_lt_pow2; lia.
Qed.

Lemma shr_1_m mrs : 0 ≤ shr_m mrs → shr_m (shr_1 mrs) = shr_m mrs / 2.
Proof.
  destruct mrs as [m r s]. cbn. intros Hm.
  destruct m as [|[p|p|]|p]; cbn [shr_m]; try lia; try done.
  - apply (Z.div_unique _ _ _ 1); lia.
  - apply (Z.div_unique _ _ _ 0); lia.
Qed.

Lemma iter_pos_shr_m p mrs :
  0 ≤ shr_m mrs → shr_m (SpecFloat.iter_pos shr_1 p mrs) = shr_m mrs / 2 ^ Z.pos p.
Proof.
  revert mrs. induction p as [p IH|p IH|]; intros mrs Hm; cbn [SpecFloat.iter_pos].
  - assert (0 ≤ shr_m (shr_1 mrs)) as H1.
    { rewrite shr_1_m by done. apply Z.div_pos; lia. }
    assert (0 ≤ shr_m (SpecFloat.iter_pos shr_1 p (shr_1 mrs))) as H2.
    { rewrite IH by done. apply Z.div_pos; lia. }
    rewrite (IH _ H2), (IH _ H1), shr_1_m by done.
    rewrite !Z.div_div by lia. f_equal.
    replace (Z.pos p~1) with (1 + Z.pos p + Z.pos p) by lia.
    rewrite !Z.pow_add_r, Z.pow_1_r by lia. ring.
  - assert (0 ≤ shr_m (SpecFloat.iter_pos shr_1 p mrs)) as H2.
    { rewrite IH by done. apply Z.div_pos; lia. }
    rewrite (IH _ H2), (IH _ Hm).
    rewrite !Z.div_div by lia. f_equal.
    replace (Z.pos p~0) with (Z.pos p + Z.pos p) by lia.
    rewrite !Z.pow_add_r by lia. ring.
  - by rewrite shr_1_m.
Qed.

Lemma shr_record_of_loc_m m l : shr_m (shr_record_of_loc m l) = m.
Proof. by destruct l as [|[| |]]. Qed.

Lemma shr_fexp_spec m e l :
  0 ≤ m →
  ∀ mrs e', shr_fexp prec emax m e l = (mrs, e') →
  e' = Z.max e (fexp prec emax (Zdigits2 m + e))
  ∧ shr_m mrs = m / 2 ^ (e' - e).
Proof.
  intros Hm mrs e'. unfold shr_fexp, shr.
  destruct (fexp prec emax (Zdigits2 m + e) - e) as [|p|p] eqn:Hn.
  - intros [= <- <-]. split; [lia|].
    rewrite shr_record_of_loc_m, Z.sub_diag. cbn. by rewrite Z.div_1_r.
  - intros [= <- <-]. split; [lia|].
    rewrite iter_pos_shr_m by (by rewrite shr_record_of_loc_m).
    rewrite shr_record_of_loc_m. f_equal. f_equal. lia.
  - intros [= <- <-]. split; [lia|].
    rewrite shr_record_of_loc_m, Z.sub_diag. cbn. by rewrite Z.div_1_r.
Qed.

Lemma round_nearest_even_cases m l :
  round_nearest_even m l = m ∨ round_nearest_even m l = m + 1.
Proof.
  destruct l as [|[| |]]; cbn; auto. destruct (Z.even m); auto.
Qed.

Lemma Zdigits2_div_pow2 m n :
  0 ≤ n → 0 < m / 2 ^ n → Zdigits2 (m / 2 ^ n) = Zdigits2 m - n.
Proof.
  intros Hn Hq.
  assert (0 < 2 ^ n) as Hpow by (apply Z.pow_pos_nonneg; lia).
  assert (0 < m) as Hm.
  { destruct (Z.lt_ge_cases 0 m) as [|Hle]; [done|].
    assert (m / 2 ^ n ≤ 0); [|lia]. apply Z.div_le_upper_bound; lia. }
  destruct (Zdigits2_bounds m Hm) as [Hlo Hhi].
  assert (n < Zdigits2 m) as Hlt.
  { destruct (Z.lt_ge_cases n (Zdigits2 m)) as [|Hge]; [done|].
    assert (m / 2 ^ n = 0); [|lia]. apply Z.div_small. split; [lia|].
    eapply Z.lt_le_trans; [exact Hhi|]. apply Z.pow_le_mono_r; lia. }
  apply Zdigits2_unique; [done|]. split.
  - apply Z.div_le_lower_bound; [done|].
    rewrite <- Z.pow_add_r by lia.
    by replace (n + (Zdigits2 m - n - 1)) with (Zdigits2 m - 1) by lia.
  - apply Z.div_lt_upper_bound; [done|].
    rewrite <- Z.pow_add_r by lia.
    by replace (n + (Zdigits2 m - n)) with (Zdigits2 m) by lia.
Qed.

Lemma Zdigits2_succ m :
  0 < m →
  Zdigits2 (m + 1) = Zdigits2 m
  ∨ (m + 1 = 2 ^ Zdigits2 m ∧ Zdigits2 (m + 1) = Zdigits2 m + 1).
Proof.
  intros Hm. destruct (Zdigits2_bounds m Hm) as [Hlo Hhi].
  destruct (Z.eq_dec (m + 1) (2 ^ Zdigits2 m)) as [Heq|Hne].
  - right. split; [done|]. apply Zdigits2_unique; [lia|].
    replace (Zdigits2 m + 1 - 1) with (Zdigits2 m) by lia. split; [lia|].
    rewrite Z.pow_add_r, Z.pow_1_r by (pose proof (Zdigits2_nonneg m); lia). lia.
  - left. apply Zdigits2_unique; lia.
Qed.

Lemma Zdigits2_pow2 k : 0 ≤ k → Zdigits2 (2 ^ k) = k + 1.
Proof.
  intros Hk. apply Zdigits2_unique.
  - apply Z.pow_pos_nonneg; lia.
  - replace (k + 1 - 1) with k by lia. split; [lia|].
    apply Z.pow_lt_mono_r; lia.
Qed.

Lemma binary_round_aux_finish sx mx ex lx :
  binary_round_aux prec emax sx mx ex lx
  = finish sx
      (round_nearest_even (shr_m (shr_fexp prec emax mx ex lx).1)
         (loc_of_shr_record (shr_fexp prec emax mx ex lx).1))
      (shr_fexp prec emax mx ex lx).2.
Proof.
  unfold binary_round_aux, finish.
  by destruct (shr_fexp prec emax mx ex lx) as [mrs1 e1].
Qed.

Lemma finish_zero sx e1 : -1074 ≤ e1 → finish sx 0 e1 = S754_zero sx.
Proof.
  intros He. unfold finish.
  destruct (shr_fexp prec emax 0 e1 loc_Exact) as [mrs e] eqn:Hs.
  apply shr_fexp_spec in Hs as [-> Hm]; [|done].
  rewrite Z.div_0_l in Hm by (apply Z.pow_nonzero; [lia|rewrite fexp_eq; cbn; lia]).
  by rewrite Hm.
Qed.

Lemma finish_canonical sx mr e1 :
  0 < mr → fexp prec emax (Zdigits2 mr + e1) = e1 → e1 ≤ 971 →
  ∃ m, finish sx mr e1 = S754_finite sx m e1
       ∧ Z.pos m = mr ∧ bounded prec emax m e1 = true.
Proof.
  intros Hmr Hcan He. unfold finish.
  destruct (shr_fexp prec emax mr e1 loc_Exact) as [mrs e] eqn:Hs.
  apply shr_fexp_spec in Hs as [-> Hm]; [|lia].
  rewrite Hcan, Z.max_id in *. rewrite Z.sub_diag, Z.pow_0_r, Z.div_1_r in Hm.
  rewrite Hm. destruct mr as [|m|m]; try lia.
  exists m. replace (e1 <=? emax - prec) with true by (symmetry; apply Z.leb_le; unfold emax, prec; lia).
  split; [done|]. split; [done|].
  unfold bounded, canonical_mantissa. apply andb_true_iff. split.
  - apply Z.eqb_eq. exact Hcan.
  - apply Z.leb_le. unfold emax, prec. lia.
Qed.

Lemma finish_carry sx k e1 :
  1 ≤ k → fexp prec emax (k + 1 + e1) = e1 + 1 → e1 + 1 ≤ 971 →
  ∃ m, finish sx (2 ^ k) e1 = S754_finite sx m (e1 + 1)
       ∧ Z.pos m * 2 = 2 ^ k ∧ bounded prec emax m (e1 + 1) = true.
Proof.
  intros Hk Hcan He. unfold finish.
  destruct (shr_fexp prec emax (2 ^ k) e1 loc_Exact) as [mrs e] eqn:Hs.
  apply shr_fexp_spec in Hs as [-> Hm]; [|lia].
  rewrite Zdigits2_pow2, Hcan in * by lia.
  replace (Z.max e1 (e1 + 1)) with (e1 + 1) in * by lia.
  replace (e1 + 1 - e1) with 1 in Hm by lia. rewrite Z.pow_1_r in Hm.
  assert (2 ^ k = 2 * 2 ^ (k - 1)) as Hpow.
  { rewrite <- Z.pow_succ_r by lia. f_equal. lia. }
  assert (0 < 2 ^ (k - 1)) as Hpos by (apply Z.pow_pos_nonneg; lia).
  rewrite Hpow, Z.mul_comm, Z.div_mul in Hm by lia. rewrite Hm.
  destruct (2 ^ (k - 1)) as [|m|m] eqn:Hpk; try lia.
  exists m.
  replace (e1 + 1 <=? emax - prec) with true by (symmetry; apply Z.leb_le; unfold emax, prec; lia).
  split; [done|]. split; [lia|].
  unfold bounded, canonical_mantissa. apply andb_true_iff. split.
  - apply Z.eqb_eq. change (Z.pos (digits2_pos m)) with (Zdigits2 (Z.pos m)).
    rewrite <- Hpk, Zdigits2_pow2 by lia.
    by replace (k - 1 + 1 + (e1 + 1)) with (k + 1 + e1) by lia.
  - apply Z.leb_le. unfold emax, prec. lia.
Qed.

Lemma binary_round_aux_spec sx mx ex lx :
  0 ≤ mx →
  ex ≤ fexp prec emax (Zdigits2 mx + ex) →
  Zdigits2 mx + ex ≤ 1023 →
  ∃ mr,
    (mr = mx / 2 ^ (fexp prec emax (Zdigits2 mx + ex) - ex)
     ∨ mr = mx / 2 ^ (fexp prec emax (Zdigits2 mx + ex) - ex) + 1)
    ∧ match binary_round_aux prec emax sx mx ex lx with
      | S754_zero s => s = sx ∧ mr = 0
      | S754_finite s m e =>
          s = sx ∧ bounded prec emax m e = true
          ∧ fexp prec emax (Zdigits2 mx + ex) ≤ e
          ∧ Z.pos m * 2 ^ (e - fexp prec emax (Zdigits2 mx + ex)) = mr
      | _ => False
      end.
Proof.
  intros Hmx Halign Hmag. rewrite binary_round_aux_finish.
  destruct (shr_fexp prec emax mx ex lx) as [mrs1 e1] eqn:Hs. cbn [fst snd].
  apply shr_fexp_spec in Hs as [He1 Hm1]; [|done].
  set (e' := fexp prec emax (Zdigits2 mx + ex)) in *.
  assert (e1 = e') as -> by lia. clear He1.
  set (m' := mx / 2 ^ (e' - ex)) in *.
  assert (0 < 2 ^ (e' - ex)) as Hpow by (apply Z.pow_pos_nonneg; lia).
  assert (0 ≤ m') as Hm' by (apply Z.div_pos; lia).
  assert (-1074 ≤ e' ≤ 970) as He'.
  { subst e'. rewrite fexp_eq. lia. }
  set (mr := round_nearest_even (shr_m mrs1) (loc_of_shr_record mrs1)).
  assert (mr = m' ∨ mr = m' + 1) as Hmr.
  { subst mr. rewrite Hm1. apply round_nearest_even_cases. }
  exists mr. split; [done|].
  destruct (Z.eq_dec mr 0) as [Hz|Hnz].
  { rewrite Hz, finish_zero by lia. done. }
  assert (0 < mr) as Hpos by lia.
  destruct (Z.eq_dec m' 0) as [Hm0|Hm0].
  - (* everything was shifted out, and the round bit brought back one unit *)
    assert (mr = 1) as Hone by lia.
    assert (e' = -1074) as Hmin.
    { assert (mx < 2 ^ (e' - ex)) as Hsmall.
      { destruct (Z.lt_ge_cases mx (2 ^ (e' - ex))) as [|Hge]; [done|].
        assert (1 ≤ m'); [|lia]. apply Z.div_le_lower_bound; lia. }
      destruct (Z.eq_dec mx 0) as [->|Hne].
      - subst e'. rewrite fexp_eq in *. cbn in *. lia.
      - destruct (Zdigits2_bounds mx) as [Hlo _]; [lia|].
        assert (Zdigits2 mx - 1 < e' - ex).
        { apply (Z.pow_lt_mono_r_iff 2); lia. }
        subst e'. rewrite fexp_eq in *. lia. }
    destruct (finish_canonical sx mr e') as (m & -> & Hm & Hb); [done| |lia|].
    { rewrite Hone, Hmin. reflexivity. }
    rewrite Z.sub_diag, Z.pow_0_r. split; [done|]. split; [done|]. lia.
  - assert (0 < m') as Hm'pos by lia.
    assert (Zdigits2 m' + e' = Zdigits2 mx + ex) as Hdig.
    { subst m'. rewrite Zdigits2_div_pow2 by lia. lia. }
    assert (fexp prec emax (Zdigits2 m' + e') = e') as Hcan by (by rewrite Hdig).
    destruct Hmr as [Hsame|Hup].
    + destruct (finish_canonical sx mr e') as (m & -> & Hm & Hb); [done| |lia|].
      { by rewrite Hsame. }
      rewrite Z.sub_diag, Z.pow_0_r. split; [done|]. split; [done|]. lia.
    + destruct (Zdigits2_succ m' Hm'pos) as [Hd|[Hcarry Hd]].
      * destruct (finish_canonical sx mr e') as (m & -> & Hm & Hb); [done| |lia|].
        { by rewrite Hup, Hd. }
        rewrite Z.sub_diag, Z.pow_0_r. split; [done|]. split; [done|]. lia.
      * destruct (Z.eq_dec (fexp prec emax (Zdigits2 mr + e')) e') as [Hstay|Hmove].
        { destruct (finish_canonical sx mr e') as (m & -> & Hm & Hb);
            [done|done|lia|].
          rewrite Z.sub_diag, Z.pow_0_r. split; [done|]. split; [done|]. lia. }
        assert (1 ≤ Zdigits2 m') as Hd1.
        { destruct (Zdigits2_bounds m' Hm'pos) as [Hlo Hhi].
          destruct (Z.lt_ge_cases (Zdigits2 m') 1) as [Hlt|]; [|done].
          assert (Zdigits2 m' = 0) as H0 by (pose proof (Zdigits2_nonneg m'); lia).
          rewrite H0 in Hhi. cbn in Hhi. lia. }
        assert (fexp prec emax (Zdigits2 m' + 1 + e') = e' + 1) as Hnext.
        { rewrite Hup, Hd in Hmove. rewrite fexp_eq in *. lia. }
        assert (mr = 2 ^ Zdigits2 m') as Hmr2 by lia.
        rewrite Hmr2.
        destruct (finish_carry sx (Zdigits2 m') e') as (m & -> & Hm & Hb);
          [done|done|rewrite fexp_eq in *; lia|].
        split; [done|]. split; [done|]. split; [lia|].
        replace (e' + 1 - e') with 1 by lia. by rewrite Z.pow_1_r.
Qed.

Lemma SFdiv_core_int p q :
  Z.pos p ≤ Z.pos q →
  ∃ mz ez,
    SFdiv_core_binary prec emax (Z.pos p) 0 (Z.pos q) 0
    = (mz, ez, new_location (Z.pos q) ((Z.pos p * 2 ^ (- ez)) mod Z.pos q))
    ∧ ez = fexp prec emax (Zdigits2 (Z.pos p) - Zdigits2 (Z.pos q))
    ∧ -1074 ≤ ez ≤ -53
    ∧ mz = (Z.pos p * 2 ^ (- ez)) / Z.pos q.
Proof.
  intros Hpq.
  assert (Zdigits2 (Z.pos p) ≤ Zdigits2 (Z.pos q)) as Hd.
  { apply Zdigits2_le; [apply Zdigits2_nonneg|].
    destruct (Zdigits2_bounds (Z.pos q)); lia. }
  set (ez := fexp prec emax (Zdigits2 (Z.pos p) - Zdigits2 (Z.pos q))).
  assert (-1074 ≤ ez ≤ -53) as Hez by (subst ez; rewrite fexp_eq; lia).
  exists ((Z.pos p * 2 ^ (- ez)) / Z.pos q), ez.
  split; [|done].
  unfold SFdiv_core_binary. rewrite !Z.add_0_r, Z.sub_diag. fold ez.
  replace (Z.min ez 0) with ez by lia.
  replace (0 - ez) with (- ez) by lia.
  destruct (- ez) as [|s|s] eqn:Hs; try lia.
  rewrite Z.shiftl_mul_pow2 by lia.
  unfold Z.div, Z.modulo.
  by destruct (Z.div_eucl (Z.pos p * 2 ^ Z.pos s) (Z.pos q)).
Qed.

Lemma SFdiv_int_spec p q :
  Z.pos p ≤ Z.pos q →
  let r := SFdiv prec emax (S754_finite false p 0) (S754_finite false q 0) in
  SFfinite r = true
  ∧ valid_binary r = true
  ∧ 0 ≤ SFscaled r
  ∧ Z.abs (SFscaled r * Z.pos q - Z.pos p * 2 ^ 1074) ≤ Z.pos q * 2 ^ 1022.
Proof.
  intros Hpq r. subst r.
  destruct (SFdiv_core_int p q Hpq) as (mz & ez & Hcore & Hez & Hrange & Hmz).
  unfold SFdiv. rewrite Hcore. cbn [xorb].
  set (lz := new_location _ _). clearbody lz. clear Hcore.
  set (P := Z.pos p) in *. set (Q := Z.pos q) in *.
  assert (0 < P) as HP by (subst P; lia). assert (0 < Q) as HQ by (subst Q; lia).
  set (s := - ez) in *.
  assert (53 ≤ s ≤ 1074) as Hs by (subst s; lia).
  assert (0 < 2 ^ s) as Hps by (apply Z.pow_pos_nonneg; lia).
  assert (mz * Q ≤ P * 2 ^ s ∧ P * 2 ^ s < (mz + 1) * Q) as [Hlo Hhi].
  { pose proof (Z.div_mod (P * 2 ^ s) Q ltac:(lia)) as Hdm.
    pose proof (Z.mod_pos_bound (P * 2 ^ s) Q HQ) as Hmod.
    rewrite <- Hmz in Hdm. lia. }
  assert (0 ≤ mz) as Hmz0 by (rewrite Hmz; apply Z.div_pos; lia).
  assert (mz ≤ 2 ^ s) as Hmzs.
  { rewrite Hmz. apply Z.div_le_upper_bound; [done|]. nia. }
  assert (Zdigits2 mz + ez ≤ 1) as Hmag.
  { assert (Zdigits2 mz ≤ s + 1); [|lia].
    apply Zdigits2_le; [lia|]. split; [done|].
    rewrite Z.pow_add_r, Z.pow_1_r by lia. lia. }
  assert (ez ≤ fexp prec emax (Zdigits2 mz + ez)) as Halign.
  { rewrite fexp_eq. destruct (Z.eq_dec ez (-1074)) as [|Hne]; [lia|].
    assert (53 ≤ Zdigits2 mz); [|lia].
    assert (ez = Zdigits2 P - Zdigits2 Q - 53) as Hez'.
    { rewrite Hez, fexp_eq in *. lia. }
    destruct (Zdigits2_bounds P HP) as [HPlo _].
    destruct (Zdigits2_bounds Q HQ) as [_ HQhi].
    assert (2 ^ 52 ≤ mz) as H52.
    { rewrite Hmz. apply Z.div_le_lower_bound; [done|].
      assert (2 ^ (Zdigits2 P - 1) * 2 ^ s = 2 ^ Zdigits2 Q * 2 ^ 52) as Heq.
      { pose proof (Zdigits2_pos P HP). pose proof (Zdigits2_nonneg Q).
        rewrite <- !Z.pow_add_r by lia. f_equal. subst s. lia. }
      assert (0 < 2 ^ 52) by done. nia. }
    destruct (Zdigits2_bounds mz ltac:(lia)) as [_ Hmzhi].
    assert (52 < Zdigits2 mz); [|lia].
    apply (Z.pow_lt_mono_r_iff 2); [lia|apply Zdigits2_nonneg|lia]. }
  destruct (binary_round_aux_spec false mz ez lz Hmz0 Halign ltac:(lia))
    as (mr & Hmr & Hres).
  set (e' := fexp prec emax (Zdigits2 mz + ez)) in *.
  assert (-1074 ≤ e' ≤ -52) as He' by (subst e'; rewrite fexp_eq; lia).
  set (n := e' - ez) in *.
  assert (0 ≤ n) as Hn by (subst n; lia).
  assert (0 < 2 ^ n) as Hpn by (apply Z.pow_pos_nonneg; lia).
  set (m' := mz / 2 ^ n) in *.
  assert (0 ≤ m') as Hm'0 by (apply Z.div_pos; lia).
  assert (m' * 2 ^ n ≤ mz ∧ mz + 1 ≤ (m' + 1) * 2 ^ n) as [Hm'lo Hm'hi].
  { pose proof (Z.div_mod mz (2 ^ n) ltac:(lia)) as Hdm.
    pose proof (Z.mod_pos_bound mz (2 ^ n) Hpn) as Hmod.
    fold m' in Hdm. lia. }
  set (T := 2 ^ (1074 - s)).
  assert (0 < T) as HT by (apply Z.pow_pos_nonneg; lia).
  set (U := 2 ^ (e' + 1074)).
  assert (0 < U) as HU by (apply Z.pow_pos_nonneg; lia).
  assert (U = 2 ^ n * T) as HUeq.
  { subst U T. rewrite <- Z.pow_add_r by lia. f_equal. subst n s. lia. }
  assert (2 ^ 1074 = 2 ^ s * T) as H1074.
  { subst T. rewrite <- Z.pow_add_r by lia. f_equal. lia. }
  assert (U ≤ 2 ^ 1022) as HUle.
  { subst U. apply Z.pow_le_mono_r; lia. }
  assert (m' * U * Q ≤ P * 2 ^ 1074 ∧ P * 2 ^ 1074 < (m' + 1) * U * Q)
    as [Hlow Hupp].
  { rewrite H1074, HUeq. split.
    - assert (m' * 2 ^ n * Q ≤ P * 2 ^ s) by nia. nia.
    - assert (P * 2 ^ s < (m' + 1) * 2 ^ n * Q) by nia. nia. }
  destruct (binary_round_aux prec emax false mz ez lz)
    as [sz|sz| |sz m e]; try done.
  - destruct Hres as [-> Hz]. split; [done|]. split; [done|]. split; [done|].
    cbn [SFscaled]. assert (m' = 0) as Hm0 by lia. rewrite Hm0 in *.
    rewrite Z.abs_neq by lia. nia.
  - destruct Hres as (-> & Hb & Hee & Hm). split; [done|]. split; [done|].
    cbn [SFscaled].
    assert (Z.pos m * 2 ^ (e + 1074) = mr * U) as Hval.
    { rewrite <- Hm. subst U. rewrite <- Z.mul_assoc, <- Z.pow_add_r by lia.
      f_equal. f_equal. lia. }
    rewrite Hval. split; [nia|].
    apply Z.abs_le. destruct Hmr as [->| ->]; nia.
Qed.


Lemma binary_round_aux_sign sx m e l :
  SFfinite (binary_round_aux prec emax sx m e l)
  = SFfinite (binary_round_aux prec emax false m e l).
Proof.
  unfold binary_round_aux.
  destruct (shr_fexp prec emax m e l) as [mrs1 e1].
  destruct (shr_fexp prec emax _ e1 loc_Exact) as [mrs2 e2].
  destruct (shr_m mrs2); [done| |done]. by destruct (e2 <=? emax - prec).
Qed.

Lemma SFdiv_int_finite sa sb p q :
  Z.pos p ≤ Z.pos q →
  SFfinite (SFdiv prec emax (S754_finite sa p 0) (S754_finite sb q 0)) = true.
Proof.
  intros Hpq. destruct (SFdiv_int_spec p q Hpq) as [Hfin _].
  revert Hfin. unfold SFdiv.
  destruct (SFdiv_core_binary prec emax (Z.pos p) 0 (Z.pos q) 0) as [[mz ez] lz].
  by rewrite (binary_round_aux_sign (xorb sa sb)).
Qed.

(** The division succeeds whenever the dividend is no larger than the divisor
    in absolute value. *)
Lemma truediv_no_larger c s :
  s ≠ 0 → Z.abs c ≤ Z.abs s → truediv c s = Ok (quotient c s).
Proof.
  intros Hs Hc. unfold truediv.
  replace (s =? 0) with false by (symmetry; apply Z.eqb_neq; lia).
  assert (SFfinite (rounded_quotient c s) = true) as Hfin.
  { unfold rounded_quotient.
    destruct s as [|q|q]; [done| |]; destruct c as [|p|p]; try done;
      apply SFdiv_int_finite; lia. }
  by destruct (rounded_quotient c s).
Qed.

Lemma truediv_within c s :
  0 ≤ c ≤ s → 0 < s → truediv c s = Ok (quotient c s).
Proof. intros Hc Hs. apply truediv_no_larger; lia. Qed.

Lemma truediv_Ok a b f : truediv a b = Ok f → f = quotient a b.
Proof.
  unfold truediv. destruct (b =? 0); [done|].
  destruct (rounded_quotient a b); by intros [= <-].
Qed.


End RoundedQuotient.

(** ** Dictionaries, reversal and sorting *)

Lemma rev_app_rev_app (s1 s2 s3 : string) :
  String.rev_app (String.rev_app s1 s2) s3 = String.rev_app s2 (s1 +:+ s3).
Proof.
  revert s2 s3. induction s1 as [|a s1 IH]; intros s2 s3; cbn.
  - done.
  - by rewrite IH.
Qed.

Lemma append_empty_r (s : string) : s +:+ "" = s.
Proof.
  induction s as [|a s IH]; [done|].
  change (String a s +:+ "") with (String a (s +:+ "")). by rewrite IH.
Qed.

Lemma reversed_involutive (k : string) : reversed (reversed k) = k.
Proof.
  unfold reversed, String.rev. rewrite rev_app_rev_app. cbn.
  apply append_empty_r.
Qed.

#[global] Instance reversed_inj : Inj (=) (=) reversed.
Proof.
  intros k1 k2 Hk. rewrite <- (reversed_involutive k1), Hk.
  apply reversed_involutive.
Qed.

Lemma dict_get_app_fresh {V} (k : string) (d1 d2 : dict V) :
  k ∉ keys d1 → dict_get k (d1 ++ d2) = dict_get k d2.
Proof.
  induction d1 as [|[k' v'] d1 IH]; cbn; [done|].
  intros Hk. apply not_elem_of_cons in Hk as [Hne Hk].
  apply String.eqb_neq in Hne. rewrite Hne. by apply IH.
Qed.

Lemma dict_get_head {V} (k : string) (v : V) (d : dict V) :
  dict_get k ((k, v) :: d) = Some v.
Proof. cbn. by rewrite String.eqb_refl. Qed.

Lemma dict_get_elem_of {V} (k : string) (v : V) (d : dict V) :
  NoDup (keys d) → dict_get k d = Some v ↔ (k, v) ∈ d.
Proof.
  induction d as [|[k' v'] d IH]; cbn.
  - intros _. split; [done|]. by intros ?%elem_of_nil.
  - intros [Hk' Hd]%NoDup_cons. rewrite elem_of_cons, <- IH by done.
    destruct (String.eqb k k') eqn:Hkk.
    + apply String.eqb_eq in Hkk as ->. split.
      * intros [= ->]. by left.
      * intros [[= ->]|Hget]; [done|]. destruct Hk'.
        apply IH in Hget; [|done].
        apply list_elem_of_fmap. by exists (k', v).
    + apply String.eqb_neq in Hkk. split; [by right|].
      by intros [[= -> ->]|?].
Qed.

Lemma dict_get_is_Some {V} (k : string) (d : dict V) :
  k ∈ keys d → is_Some (dict_get k d).
Proof.
  induction d as [|[k' v'] d IH]; cbn.
  - by intros ?%elem_of_nil.
  - intros Hk. destruct (String.eqb k k') eqn:Hkk; [done|].
    apply String.eqb_neq in Hkk. apply elem_of_cons in Hk as [?|?]; [done|].
    by apply IH.
Qed.

Lemma dict_get_Permutation {V} (k : string) (d1 d2 : dict V) :
  NoDup (keys d1) → d1 ≡ₚ d2 → dict_get k d1 = dict_get k d2.
Proof.
  intros Hd1 Hperm.
  assert (NoDup (keys d2)) as Hd2 by (unfold keys; by rewrite <- Hperm).
  apply option_eq. intros v.
  rewrite !dict_get_elem_of by done. by rewrite Hperm.
Qed.

Lemma dict_set_fresh {V} (k : string) (v : V) (d : dict V) :
  k ∉ keys d → dict_set k v d = d ++ [(k, v)].
Proof.
  induction d as [|[k' v'] d IH]; cbn; [done|].
  intros Hk. apply not_elem_of_cons in Hk as [Hne Hk].
  apply String.eqb_neq in Hne. rewrite Hne. by rewrite IH.
Qed.

Lemma keys_frequency (s : Z) (d : dict Z) :
  keys (frequency s <$> d) = reversed <$> keys d.
Proof. unfold keys. rewrite <- !list_fmap_compose. done. Qed.

Lemma dict_get_Some_elem_of {V} (k : string) (v : V) (d : dict V) :
  dict_get k d = Some v → (k, v) ∈ d.
Proof.
  induction d as [|[k' v'] d IH]; cbn; [done|].
  destruct (String.eqb k k') eqn:Hkk.
  - apply String.eqb_eq in Hkk as ->. intros [= ->]. by left.
  - intros Hget. right. by apply IH.
Qed.

(** When the comprehension succeeds on a well-formed dict, it has one item
    per item of the counts, in the same order. *)
Lemma reversed_frequencies_inv (counts : dict Z) (s : Z) (d : dict float) :
  NoDup (keys counts) →
  reversed_frequencies (keys counts) counts s [] = Ok d →
  d = frequency s <$> counts.
Proof.
  intros Hnd.
  cut (∀ l pre, counts = pre ++ l →
         reversed_frequencies (keys l) counts s (frequency s <$> pre) = Ok d →
         d = frequency s <$> counts).
  { intros Hgen. by apply (Hgen counts []). }
  induction l as [|[k c] l IH]; intros pre Hcounts; cbn.
  - rewrite Hcounts, app_nil_r. by intros [= <-].
  - assert (k ∉ keys pre) as Hk.
    { rewrite Hcounts in Hnd. unfold keys in Hnd. rewrite fmap_app in Hnd.
      apply NoDup_app in Hnd as (_ & Hdisj & _).
      intros Hin. apply (Hdisj k Hin). cbn. by left. }
    unfold getitem. rewrite Hcounts at 1.
    rewrite dict_get_app_fresh, dict_get_head by done. cbn.
    destruct (truediv c s) as [f|e] eqn:Hdiv; cbn; [|done].
    apply truediv_Ok in Hdiv as ->.
    rewrite dict_set_fresh.
    2:{ rewrite keys_frequency. intros Hin.
        apply Hk. eapply list_elem_of_fmap_inj; [apply reversed_inj|done]. }
    specialize (IH (pre ++ [(k, c)])).
    rewrite fmap_app in IH. apply IH. by rewrite <- app_assoc.
Qed.

(** The comprehension succeeds on the keys of its own dict when the shot
    count is not zero and no count exceeds it in absolute value. *)
Lemma reversed_frequencies_total (ks : list string) (counts : dict Z) (s : Z)
    (acc : dict float) :
  s ≠ 0%Z → no_larger s counts → ks ⊆ keys counts →
  ∃ d, reversed_frequencies ks counts s acc = Ok d.
Proof.
  intros Hs Hwithin. revert acc. induction ks as [|k ks IH]; intros acc Hks; cbn.
  - by eexists.
  - destruct (dict_get_is_Some k counts) as [c Hc].
    { apply Hks. by left. }
    unfold getitem. rewrite Hc. cbn.
    rewrite truediv_no_larger; [|done|by eapply Forall_forall in Hwithin;
                                       [|by apply dict_get_Some_elem_of]].
    cbn. apply IH. intros k' Hk'. apply Hks. by right.
Qed.

Lemma within_shots_no_larger (s : Z) (counts : dict Z) :
  within_shots s counts → no_larger s counts.
Proof.
  intros Hwithin. eapply Forall_impl; [exact Hwithin|]. intros kv. cbn. lia.
Qed.

Lemma reversed_frequencies_spec (counts : dict Z) (s : Z) :
  NoDup (keys counts) → (0 < s)%Z → within_shots s counts →
  reversed_frequencies (keys counts) counts s [] = Ok (frequency s <$> counts).
Proof.
  intros Hnd Hs Hwithin.
  destruct (reversed_frequencies_total (keys counts) counts s []) as [d Hd];
    [lia|by apply within_shots_no_larger|done|].
  rewrite Hd. f_equal. by apply reversed_frequencies_inv.
Qed.

Lemma insert_phase_Permutation {V} (kv : string * V) (d : dict V) :
  insert_phase kv d ≡ₚ kv :: d.
Proof.
  induction d as [|kv' d IH]; cbn; [done|].
  destruct (binary_value kv'.1 <? binary_value kv.1)%N; [|done].
  rewrite IH. apply Permutation_swap.
Qed.

Lemma sort_phases_Permutation {V} (d : dict V) : _sort_phases d ≡ₚ d.
Proof.
  induction d as [|kv d IH]; cbn; [done|].
  rewrite insert_phase_Permutation. by rewrite IH.
Qed.

(** Order of two items by the numeric value of their keys. *)
Lemma insert_phase_sorted {V} (kv : string * V) (d : dict V) :
  StronglySorted (λ a b, (binary_value a.1 ≤ binary_value b.1)%N) d →
  StronglySorted (λ a b, (binary_value a.1 ≤ binary_value b.1)%N) (insert_phase kv d).
Proof.
  induction d as [|kv' d IH]; cbn; intros Hd.
  - by repeat constructor.
  - apply StronglySorted_inv in Hd as [Hd Hall].
    destruct (binary_value kv'.1 <? binary_value kv.1)%N eqn:Hlt.
    + apply N.ltb_lt in Hlt. constructor; [by apply IH|].
      rewrite insert_phase_Permutation. constructor; [lia|done].
    + apply N.ltb_ge in Hlt. constructor.
      * by constructor.
      * constructor; [done|]. eapply Forall_impl; [exact Hall|].
        intros x Hx. cbn in Hx. lia.
Qed.

Lemma sort_phases_sorted {V} (d : dict V) :
  StronglySorted (λ a b, (binary_value a ≤ binary_value b)%N) (keys (_sort_phases d)).
Proof.
  unfold keys.
  apply (StronglySorted_fmap fst
           (λ a b, (binary_value a.1 ≤ binary_value b.1)%N)); [done|].
  induction d as [|kv d IH]; cbn; [constructor|].
  by apply insert_phase_sorted.
Qed.

(** ** The post-processor, sampling path *)

Lemma dict_get_frequency (s : Z) (k : string) (d : dict Z) :
  dict_get (reversed k) (frequency s <$> d)
  = (λ c, quotient c s) <$> dict_get k d.
Proof.
  induction d as [|[k' c'] d IH]; [done|].
  cbn [fmap list_fmap dict_get frequency fst snd]. fold (frequency s).
  destruct (String.eqb k k') eqn:Hkk.
  - apply String.eqb_eq in Hkk as ->. by rewrite String.eqb_refl.
  - apply String.eqb_neq in Hkk.
    assert (reversed k ≠ reversed k') as Hne by (by intros ?%(inj reversed)).
    apply String.eqb_neq in Hne. rewrite Hne. apply IH.
Qed.

Section PostProcessor.
Context `{!QiskitLibrary}.

Lemma compute_phases_sampling_run self qi m r :
  _quantum_instance self = Some qi → is_statevector qi = false →
  (0 < shots r)%Z → within_shots (shots r) (counts_items (get_counts r)) →
  NoDup (keys (counts_items (get_counts r))) →
  _compute_phases self m r
  = Ok (PhasesCounts
          (mkCounts
             (_sort_phases (frequency (shots r) <$> counts_items (get_counts r)))
             (memory_slots (get_counts r)) (creg_sizes (get_counts r)))).
Proof.
  intros Hqi Hsv Hs Hwithin Hnd. unfold _compute_phases, self_is_statevector.
  rewrite Hqi, Hsv. cbn. by rewrite reversed_frequencies_spec.
Qed.

Lemma compute_phases_sampling_inv self qi m r out :
  _quantum_instance self = Some qi → is_statevector qi = false →
  _compute_phases self m r = Ok (PhasesCounts out) →
  ∃ phases, counts_items out = _sort_phases phases.
Proof.
  intros Hqi Hsv. unfold _compute_phases, self_is_statevector.
  rewrite Hqi, Hsv. cbn.
  destruct (reversed_frequencies _ _ _ _) as [phases|e]; cbn; [|done].
  intros [= <-]. by exists phases.
Qed.

Lemma compute_phases_sampling_total self qi m r :
  _quantum_instance self = Some qi → is_statevector qi = false →
  shots r ≠ 0%Z → no_larger (shots r) (counts_items (get_counts r)) →
  ∃ out, _compute_phases self m r = Ok (PhasesCounts out).
Proof.
  intros Hqi Hsv Hs Hwithin. unfold _compute_phases, self_is_statevector.
  rewrite Hqi, Hsv. cbn.
  destruct (reversed_frequencies_total (keys (counts_items (get_counts r)))
              (counts_items (get_counts r)) (shots r) [] Hs Hwithin) as [d ->];
    [done|].
  cbn. by eexists.
Qed.

(** C2: on a sampling executor, for the counts dict of a run of [s > 0] shots
    (unique keys, every count between 0 and [s]), [_compute_phases] returns a
    dict whose keys are exactly the reversed keys of the counts, each reversed
    key mapped to its count divided by [s] (the exact quotient, rounded once to
    a float), and a bitstring that is not a key of the counts has no reversed
    key in the output: "observed" is read as "is a key of the counts".  For
    the counts {"00": 50, "10": 50} and 100 shots the output is
    {"00": 0.5, "01": 0.5}. *)
Theorem compute_phases_sampling (self : PhaseEstimation) (qi : QuantumInstance)
    (num_unitary_qubits : option nat) (r : Result) :
  _quantum_instance self = Some qi →
  is_statevector qi = false →
  (0 < shots r)%Z →
  within_shots (shots r) (counts_items (get_counts r)) →
  NoDup (keys (counts_items (get_counts r))) →
  (∃ out,
     _compute_phases self num_unitary_qubits r = Ok (PhasesCounts out)
     ∧ NoDup (keys (counts_items out))
     ∧ (∀ k, k ∈ keys (counts_items out)
             ↔ ∃ k0, k0 ∈ keys (counts_items (get_counts r)) ∧ k = reversed k0)
     ∧ (∀ k0, dict_get (reversed k0) (counts_items out)
              = (λ c, quotient c (shots r))
                  <$> dict_get k0 (counts_items (get_counts r))))
  ∧ _compute_phases sampling_estimator None (toy_result 100 observed_counts)
    = Ok (PhasesCounts
            (mkCounts [("00", 0.5%float); ("01", 0.5%float)]
               (Some 2) (Some [("meas", 2)]))).
Proof.
  intros Hqi Hsv Hs Hwithin Hnd. split; [|reflexivity].
  eexists. split.
  { by eapply compute_phases_sampling_run. }
  cbn [counts_items].
  set (counts := counts_items (get_counts r)) in *.
  assert (NoDup (keys (frequency (shots r) <$> counts))) as Hnd'.
  { rewrite keys_frequency. by apply (NoDup_fmap_2 reversed). }
  split; [|split].
  - unfold keys. by rewrite sort_phases_Permutation.
  - intros k. unfold keys at 1. rewrite sort_phases_Permutation.
    fold (keys (frequency (shots r) <$> counts)). rewrite keys_frequency.
    rewrite list_elem_of_fmap. split; intros (k0 & ? & ?); by exists k0.
  - intros k0. rewrite <- dict_get_frequency.
    symmetry. apply dict_get_Permutation; [done|].
    symmetry. apply sort_phases_Permutation.
Qed.

(** C3: on a sampling executor, the keys of the dict [_compute_phases] returns
    are in non-decreasing order of their numeric value, read as unsigned binary
    numbers with the most significant bit leftmost; and it does return a dict
    whenever the shot count is not zero and no count is larger than it in
    absolute value (so that no quotient overflows). *)
Theorem compute_phases_sampling_sorted (self : PhaseEstimation)
    (qi : QuantumInstance) (num_unitary_qubits : option nat) (r : Result) :
  _quantum_instance self = Some qi →
  is_statevector qi = false →
  (shots r ≠ 0%Z → no_larger (shots r) (counts_items (get_counts r)) →
     ∃ out, _compute_phases self num_unitary_qubits r = Ok (PhasesCounts out))
  ∧ (∀ out,
       _compute_phases self num_unitary_qubits r = Ok (PhasesCounts out) →
       StronglySorted (λ a b, (binary_value a ≤ binary_value b)%N)
         (keys (counts_items out))).
Proof.
  intros Hqi Hsv. split.
  - intros Hs Hle. by eapply compute_phases_sampling_total.
  - intros out Hout.
    destruct (compute_phases_sampling_inv _ _ _ _ _ Hqi Hsv Hout) as [phases ->].
    apply sort_phases_sorted.
Qed.

End PostProcessor.

(** ** The sum of the frequencies *)






Section FrequencySum.
Context `{!QiskitLibrary}.


End FrequencySum.

(** ** The theorems at concrete inputs *)

Lemma estimate_argument_check_witness :
  _num_evaluation_qubits sampling_estimator = Some 2
  ∧ estimate sampling_estimator (Some 0) (Some 1) (Some 1) None two_circuits
    = (Raise (ValueError "Only one of `pe_circuit` and `unitary` may be passed."),
       two_circuits)
  ∧ estimate sampling_estimator None None None None two_circuits
    = (Raise (ValueError "One of `pe_circuit` and `unitary` must be passed."),
       two_circuits).
Proof.
  split; [reflexivity|]. split.
  - apply (estimate_argument_check sampling_estimator 2 (Some 0) (Some 1) (Some 1)
             None two_circuits eq_refl); by eexists.
  - apply (estimate_argument_check sampling_estimator 2 None None None
             None two_circuits eq_refl); reflexivity.
Defined.

(** C1 fails as stated: on an instance built without a width, [estimate] with
    neither argument ends in [AttributeError], not in the error of the argument
    check; and on an instance with a width the message of that error is not the
    one of the claim. *)
Lemma estimate_argument_check_counterexample :
  estimate unset_estimator None None None None empty_world
  = (Raise (AttributeError "_num_evaluation_qubits"), empty_world)
  ∧ (∀ msg, (estimate unset_estimator None None None None empty_world).1
            ≠ Raise (ValueError msg))
  ∧ (estimate sampling_estimator None None None None empty_world).1
    ≠ Raise (ValueError "one of `pe_circuit` and `unitary` must be passed").
Proof. split; [reflexivity|]. split; [intros msg|]; discriminate. Qed.

Lemma estimate_ValueError_atomic_witness :
  (estimate sampling_estimator None None None None two_circuits).1
  = Raise (ValueError "One of `pe_circuit` and `unitary` must be passed.")
  ∧ heap (estimate sampling_estimator None None None None two_circuits).2
    = heap two_circuits
  ∧ executions (estimate sampling_estimator None None None None two_circuits).2
    = executions two_circuits.
Proof.
  split; [reflexivity|].
  apply (estimate_ValueError_atomic sampling_estimator None None None None
           two_circuits "One of `pe_circuit` and `unitary` must be passed.").
  reflexivity.
Defined.

Lemma estimate_unitary_uses_built_circuit_witness :
  construct_circuit sampling_estimator 0 (Some 1) two_circuits
  = (Ok 2, (construct_circuit sampling_estimator 0 (Some 1) two_circuits).2)
  ∧ ∃ c,
      heap (construct_circuit sampling_estimator 0 (Some 1) two_circuits).2 !! 2
      = Some c
      ∧ ∀ m,
          executions
            (estimate sampling_estimator (Some 0) (Some 1) None m two_circuits).2
          = [(2, c)].
Proof.
  split; [reflexivity|].
  destruct (estimate_unitary_uses_built_circuit sampling_estimator 0 (Some 1) 2
              two_circuits _ eq_refl)
    as (qi & n & cu & c & _ & _ & _ & Hc & Hrun).
  exists c. split; [exact Hc|].
  intros m. rewrite (Hrun m). reflexivity.
Defined.

Lemma construct_circuit_state_preparation_witness :
  well_formed x_preparation
  ∧ ∃ c,
      construct_circuit sampling_estimator 0 (Some 1) two_circuits
      = (Ok 2, {| heap := heap two_circuits ++ [c]; executions := [] |})
      ∧ data c
        = [mkInstruction (Gate "x") [2] [];
           mkInstruction (Gate "QPE") [0; 1; 2] [];
           mkInstruction Barrier [0; 1; 2] [];
           mkInstruction Measure [0] [0];
           mkInstruction Measure [1] [1]].
Proof.
  assert (well_formed x_preparation) as Hwf.
  { repeat constructor. }
  split; [exact Hwf|].
  destruct (construct_circuit_state_preparation sampling_estimator
              (toy_sampler 100 observed_counts) 2 0 1
              identity_unitary x_preparation two_circuits
              eq_refl eq_refl eq_refl eq_refl eq_refl Hwf)
    as (c & Hrun & Hdata & _).
  exists c. split; [exact Hrun|exact Hdata].
Defined.

Lemma add_measurement_if_required_effect_witness :
  (∃ c',
     _add_measurement_if_required sampling_estimator 0 two_circuits
     = (Ok qiskit_circuit, {| heap := [c'; x_preparation]; executions := [] |})
     ∧ cregs c' = [mkClassicalRegister 2 "meas"]
     ∧ data c'
       = [mkInstruction (Gate "id") [0] [];
          mkInstruction Barrier [0] [];
          mkInstruction Measure [0] [0];
          mkInstruction Measure [1] [1]])
  ∧ _add_measurement_if_required statevector_estimator 0 two_circuits
    = (Ok qiskit_circuit, two_circuits).
Proof.
  split.
  - destruct (add_measurement_if_required_effect sampling_estimator
                (toy_sampler 100 observed_counts) 2 0 identity_unitary two_circuits
                eq_refl eq_refl eq_refl) as [Hsampling _].
    destruct (Hsampling eq_refl) as (c' & Hrun & _ & Hcregs & Hdata).
    exists c'. split; [exact Hrun|]. split; [exact Hcregs|exact Hdata].
  - apply (add_measurement_if_required_effect statevector_estimator
             toy_simulator 2 0 identity_unitary two_circuits
             eq_refl eq_refl eq_refl).
    reflexivity.
Defined.

Lemma estimate_store_effect_witness :
  ∃ result w',
    estimate sampling_estimator None None (Some 0) None two_circuits
    = (Ok result, w')
    ∧ heap w' = <[0 := measured 2 identity_unitary]> (heap two_circuits)
    ∧ heap w' !! 1 = heap two_circuits !! 1.
Proof.
  eexists _, _. split; [reflexivity|].
  destruct (estimate_store_effect sampling_estimator None None (Some 0) None
              two_circuits _ _ eq_refl)
    as (qi & n & c & Hqi & Hn & Hc & _ & Hsampling).
  injection Hqi as <-. injection Hn as <-. injection Hc as <-.
  destruct (Hsampling eq_refl) as [Hheap Hother].
  split; [exact Hheap|]. apply Hother. discriminate.
Defined.

(** C9 fails as stated: a successful [estimate] on a sampling executor leaves
    the caller's [pe_circuit] changed. *)
Lemma estimate_mutates_caller_circuit :
  ∃ result w',
    estimate sampling_estimator None None (Some 0) None two_circuits
    = (Ok result, w')
    ∧ heap two_circuits !! 0 = Some identity_unitary
    ∧ heap w' !! 0 = Some (measured 2 identity_unitary)
    ∧ measured 2 identity_unitary ≠ identity_unitary.
Proof.
  eexists _, _. split; [reflexivity|]. split; [reflexivity|].
  split; [reflexivity|]. discriminate.
Qed.

Lemma compute_phases_sampling_witness :
  NoDup (keys observed_counts)
  ∧ within_shots 100 observed_counts
  ∧ ∃ out,
      _compute_phases sampling_estimator None (toy_result 100 observed_counts)
      = Ok (PhasesCounts out)
      ∧ dict_get "01" (counts_items out) = Some 0.5%float
      ∧ dict_get "10" (counts_items out) = None.
Proof.
  assert (NoDup (keys observed_counts)) as Hnd.
  { apply (bool_decide_unpack _). vm_compute. exact I. }
  assert (within_shots 100 observed_counts) as Hwithin.
  { repeat constructor; cbn; lia. }
  split; [exact Hnd|]. split; [exact Hwithin|].
  destruct (compute_phases_sampling sampling_estimator
              (toy_sampler 100 observed_counts) None
              (toy_result 100 observed_counts) eq_refl eq_refl eq_refl
              Hwithin Hnd)
    as [(out & Hrun & _ & _ & Hget) _].
  exists out. split; [exact Hrun|]. split.
  - exact (Hget "10"%string).
  - exact (Hget "01"%string).
Defined.

(** The division at the edges of the format: operands above 2^53 and 2^63
    are divided exactly and rounded once, and a quotient that does not fit is
    an [OverflowError]. *)
Lemma truediv_large_operands :
  truediv (2 ^ 63) (2 ^ 63) = Ok 1%float
  ∧ truediv (2 ^ 53 + 1) 3 = Ok 3002399751580331%float
  ∧ truediv 1 3 = Ok 0x1.5555555555555p-2%float
  ∧ truediv 0 (-5) = Ok (-0)%float
  ∧ truediv (2 ^ 1100) 1 = Raise OverflowError
  ∧ truediv 1 (2 ^ 1100) = Ok 0%float
  ∧ truediv 1 0 = Raise ZeroDivisionError.
Proof. repeat split; vm_compute; reflexivity. Qed.



Lemma compute_phases_sampling_sorted_witness :
  ∃ out,
    _compute_phases sampling_estimator None (toy_result 100 observed_counts)
    = Ok (PhasesCounts out)
    ∧ StronglySorted (λ a b, (binary_value a ≤ binary_value b)%N)
        (keys (counts_items out)).
Proof.
  destruct (compute_phases_sampling_sorted sampling_estimator
              (toy_sampler 100 observed_counts) None
              (toy_result 100 observed_counts) eq_refl eq_refl)
    as [Htotal Hsorted].
  destruct Htotal as [out Hout]; [discriminate|repeat constructor; cbn; lia|].
  exists out. split; [exact Hout|]. by apply Hsorted.
Defined.

(** ** What the methods leave untouched *)

Lemma bind_mret_world {A B} (m : M A) (b : B) w :
  ((m ≫= λ _, mret b) w).2 = (m w).2.
Proof. unfold mbind, M_bind. by destruct (m w) as [[a|e] w']. Qed.

Lemma world_eta w : {| heap := heap w; executions := executions w |} = w.
Proof. by destruct w. Qed.

Section Frames.
Context `{!QiskitLibrary}.

Lemma add_measurement_no_width self qi pe w :
  _quantum_instance self = Some qi → is_statevector qi = false →
  _num_evaluation_qubits self = None →
  _add_measurement_if_required self pe w
  = (Raise (AttributeError "_num_evaluation_qubits"), w).
Proof.
  intros Hqi Hsv Hn.
  unfold _add_measurement_if_required, self_is_statevector, self_num_evaluation_qubits.
  by rewrite Hqi, Hsv, Hn.
Qed.

(** The method either leaves the store as it was, or replaces the circuit
    behind [pe] by the measured one. *)
Lemma add_measurement_cases self pe w :
  (_add_measurement_if_required self pe w).2 = w
  ∨ ∃ n c,
      heap w !! pe = Some c
      ∧ _add_measurement_if_required self pe w
        = (Ok qiskit_circuit,
           {| heap := <[pe := measured n c]> (heap w); executions := executions w |}).
Proof.
  destruct (_quantum_instance self) as [qi|] eqn:Hqi.
  2:{ left. by rewrite add_measurement_no_instance. }
  destruct (is_statevector qi) eqn:Hsv.
  { left. by erewrite add_measurement_statevector. }
  destruct (_num_evaluation_qubits self) as [n|] eqn:Hn.
  2:{ left. by erewrite add_measurement_no_width. }
  destruct (heap w !! pe) as [c|] eqn:Hpe.
  - right. exists n, c. split; [done|]. by eapply add_measurement_sampling.
  - left. by erewrite add_measurement_dangling.
Qed.

(** The state-preparation step of the builder, on the store that holds the
    fresh template [t] in its last cell. *)
Lemma state_preparation_step (sp : option loc) (n m : nat) (t : QuantumCircuit) w :
  ∃ r c',
    (match sp with
     | Some sp0 =>
         prep ← deref sp0;
         mutate (length (heap w)) (compose prep (range n (n + m)) true)
     | None => mret ()
     end) {| heap := heap w ++ [t]; executions := executions w |}
    = (r, {| heap := heap w ++ [c']; executions := executions w |}).
Proof.
  destruct sp as [r|]; [|by exists (Ok ()), t].
  destruct ((heap w ++ [t]) !! r) as [p|] eqn:Hp.
  - exists (Ok ()). eexists.
    erewrite bind_Ok by (unfold deref; cbn; by rewrite Hp).
    erewrite mutate_run by (cbn; apply lookup_snoc_new).
    cbn. by rewrite insert_snoc_new.
  - eexists (Raise _), t.
    erewrite bind_Raise by (unfold deref; cbn; by rewrite Hp). done.
Qed.

(** Whatever its outcome, the builder adds at most one cell to the store and
    leaves the executor's log alone. *)
Lemma construct_circuit_grows self u sp w :
  ∃ l, length l ≤ 1
       ∧ (construct_circuit self u sp w).2
         = {| heap := heap w ++ l; executions := executions w |}.
Proof.
  unfold construct_circuit, self_num_evaluation_qubits.
  destruct (_num_evaluation_qubits self) as [n|] eqn:Hn.
  2:{ exists []. split; [cbn; lia|]. cbn. by rewrite app_nil_r, world_eta. }
  erewrite bind_Ok by reflexivity.
  destruct (heap w !! u) as [cu|] eqn:Hu.
  2:{ erewrite bind_Raise by (unfold deref; by rewrite Hu).
      exists []. split; [cbn; lia|]. cbn. by rewrite app_nil_r, world_eta. }
  erewrite bind_Ok by (unfold deref; by rewrite Hu).
  erewrite bind_Ok by reflexivity.
  destruct (state_preparation_step sp n (num_qubits cu)
              (library_PhaseEstimation n cu) w) as (r & prepared & Hr).
  destruct r as [[]|e].
  2:{ erewrite bind_Raise by exact Hr. by exists [prepared]. }
  erewrite bind_Ok by exact Hr.
  rewrite bind_mret_world.
  destruct (add_measurement_cases self (length (heap w))
              {| heap := heap w ++ [prepared]; executions := executions w |})
    as [->|(n' & c & Hc & ->)].
  - by exists [prepared].
  - cbn. rewrite insert_snoc_new. by eexists [_].
Qed.

(** X1: whatever its arguments and its outcome, [construct_circuit] never
    calls the executor and never changes or removes a circuit that was in the
    store: the store after the call is the store before it, followed by at most
    one new circuit; when the call returns, it returns the new circuit. *)
Theorem construct_circuit_frame (self : PhaseEstimation) (unitary : loc)
    (state_preparation : option loc) (w : world) :
  executions (construct_circuit self unitary state_preparation w).2 = executions w
  ∧ (∃ l, length l ≤ 1
          ∧ heap (construct_circuit self unitary state_preparation w).2
            = heap w ++ l)
  ∧ (∀ pe_circuit,
       (construct_circuit self unitary state_preparation w).1 = Ok pe_circuit →
       pe_circuit = length (heap w)
       ∧ length (heap (construct_circuit self unitary state_preparation w).2)
         = S (length (heap w))).
Proof.
  destruct (construct_circuit_grows self unitary state_preparation w)
    as (l & Hl & Hw).
  split; [by rewrite Hw|]. split; [exists l; by rewrite Hw|].
  intros pe Hpe.
  destruct (construct_circuit self unitary state_preparation w) as [r w1] eqn:Hc.
  cbn in Hpe. subst r.
  destruct (construct_circuit_inv _ _ _ _ _ _ Hc)
    as (qi & n & cu & c & _ & _ & _ & -> & ->).
  split; [done|]. cbn. rewrite length_app. cbn. lia.
Qed.

(** X2: whatever its outcome, [_add_measurement_if_required] touches no
    circuit other than the one it is given, allocates nothing and never calls
    the executor. *)
Theorem add_measurement_frame (self : PhaseEstimation) (pe_circuit : loc)
    (w : world) :
  executions (_add_measurement_if_required self pe_circuit w).2 = executions w
  ∧ length (heap (_add_measurement_if_required self pe_circuit w).2)
    = length (heap w)
  ∧ (∀ r, r ≠ pe_circuit →
          heap (_add_measurement_if_required self pe_circuit w).2 !! r
          = heap w !! r).
Proof.
  destruct (add_measurement_cases self pe_circuit w)
    as [->|(n & c & Hc & ->)]; [done|].
  cbn. split; [done|]. split; [by rewrite length_insert|].
  intros r Hr. by apply list_lookup_insert_ne.
Qed.

(** X3: on a complete instance and without a state preparation, the circuit
    [construct_circuit] builds starts with the template's gates: nothing is
    placed in front of them, and only the measurement part of a sampling
    executor follows. *)
Theorem construct_circuit_without_state_preparation (self : PhaseEstimation)
    (qi : QuantumInstance) (n : nat) (unitary : loc) (cu : QuantumCircuit)
    (w : world) :
  _quantum_instance self = Some qi →
  _num_evaluation_qubits self = Some n →
  heap w !! unitary = Some cu →
  ∃ c,
    construct_circuit self unitary None w
    = (Ok (length (heap w)),
       {| heap := heap w ++ [c]; executions := executions w |})
    ∧ data c
      = qpe_gates n cu
        ++ (if is_statevector qi then []
            else mkInstruction Barrier (seq 0 (n + num_qubits cu)) []
                 :: ((λ i, mkInstruction Measure [i] [i]) <$> seq 0 n))
    ∧ cregs c
      = (if is_statevector qi then [] else [mkClassicalRegister n "meas"]).
Proof.
  intros Hqi Hn Hu. eexists. split; [|split].
  - by erewrite construct_circuit_run.
  - cbn. unfold built_circuit. destruct (is_statevector qi).
    + cbn. by rewrite app_nil_r.
    + unfold measured. rewrite measure_range. cbn. unfold range.
      by rewrite Nat.sub_0_r, <- app_assoc.
  - cbn. unfold built_circuit. by destruct (is_statevector qi).
Qed.

End Frames.

(** ** [estimate] on a circuit of the caller, and its failures *)

Section EstimatePaths.
Context `{!QiskitLibrary}.

(** [estimate] on a circuit of the caller, run on a store that holds it. *)
Lemma estimate_pe_circuit_run self qi n sp pe c m w :
  _quantum_instance self = Some qi →
  _num_evaluation_qubits self = Some n →
  heap w !! pe = Some c →
  estimate self None sp (Some pe) m w
  = (r ← executor_outcome
           (execute qi (if is_statevector qi then c else measured n c));
     phases ← _compute_phases self m r;
     Ok (mkPhaseEstimationResult n r phases),
     {| heap := <[pe := if is_statevector qi then c else measured n c]> (heap w);
        executions :=
          executions w
          ++ [(pe, if is_statevector qi then c else measured n c)] |}).
Proof.
  intros Hqi Hn Hpe. unfold estimate, self_num_evaluation_qubits. rewrite Hn.
  erewrite bind_Ok by reflexivity.
  destruct (is_statevector qi) eqn:Hsv.
  - erewrite bind_Ok.
    2:{ erewrite bind_Ok by by eapply add_measurement_statevector. reflexivity. }
    cbn beta iota. erewrite execute_and_package by done.
    by rewrite list_insert_id.
  - erewrite bind_Ok.
    2:{ erewrite bind_Ok by by eapply add_measurement_sampling. reflexivity. }
    cbn beta iota. erewrite execute_and_package; [done..|].
    cbn. apply list_lookup_insert_eq. by eapply lookup_lt_Some.
Qed.

(** [estimate] on a reference that is not in the store, or on an instance
    without an executor: it fails and the store is as before. *)
Lemma estimate_pe_circuit_early_failure self sp pe m w :
  _quantum_instance self = None ∨ heap w !! pe = None →
  ∃ e, estimate self None sp (Some pe) m w = (Raise e, w).
Proof.
  intros Hearly. unfold estimate, self_num_evaluation_qubits.
  destruct (_num_evaluation_qubits self) as [n|] eqn:Hn; [|by eexists].
  erewrite bind_Ok by reflexivity.
  destruct (_quantum_instance self) as [qi|] eqn:Hqi.
  2:{ eexists. erewrite bind_Raise; [done|].
      erewrite bind_Raise; [done|]. by eapply add_measurement_no_instance. }
  destruct Hearly as [?|Hpe]; [done|].
  destruct (is_statevector qi) eqn:Hsv.
  - erewrite bind_Ok.
    2:{ erewrite bind_Ok by by eapply add_measurement_statevector. reflexivity. }
    cbn beta iota. apply execute_and_package_dangling; done.
  - eexists. erewrite bind_Raise; [done|].
    erewrite bind_Raise; [done|]. by eapply add_measurement_dangling.
Qed.

Lemma estimate_pe_circuit_dangling_sampling self qi n sp pe m w :
  _quantum_instance self = Some qi → is_statevector qi = false →
  _num_evaluation_qubits self = Some n →
  heap w !! pe = None →
  estimate self None sp (Some pe) m w = (Raise (DanglingReference pe), w).
Proof.
  intros Hqi Hsv Hn Hpe. unfold estimate, self_num_evaluation_qubits. rewrite Hn.
  erewrite bind_Ok by reflexivity.
  erewrite bind_Raise; [done|].
  erewrite bind_Raise; [done|]. by eapply add_measurement_dangling.
Qed.

Lemma compute_phases_sampling_any_width self qi m m' r :
  _quantum_instance self = Some qi → is_statevector qi = false →
  _compute_phases self m r = _compute_phases self m' r.
Proof.
  intros Hqi Hsv. unfold _compute_phases, self_is_statevector.
  by rewrite Hqi, Hsv.
Qed.

Lemma compute_phases_statevector_run self qi n m r :
  _quantum_instance self = Some qi → is_statevector qi = true →
  _num_evaluation_qubits self = Some n →
  _compute_phases self m r
  = match m with
    | Some k =>
        Ok (PhasesArray
              (probabilities (partial_trace (get_statevector r) (seq n k))))
    | None => Raise TypeError
    end.
Proof.
  intros Hqi Hsv Hn.
  unfold _compute_phases, self_is_statevector, self_num_evaluation_qubits.
  rewrite Hqi, Hsv, Hn. cbn. destruct m as [k|]; [|done].
  cbn. unfold range. by replace (n + k - n) with k by lia.
Qed.

(** The builder on an instance without an executor: the circuit is built,
    state preparation included, before the missing executor is noticed. *)
Lemma construct_circuit_no_instance self n u cu sp w :
  _quantum_instance self = None →
  _num_evaluation_qubits self = Some n →
  heap w !! u = Some cu →
  (∀ r, sp = Some r → is_Some (heap w !! r)) →
  construct_circuit self u sp w
  = (Raise (AttributeError "is_statevector"),
     {| heap :=
          heap w
          ++ [match sp ≫= (heap w !!.) with
              | Some prep =>
                  compose prep (range n (n + num_qubits cu)) true
                    (library_PhaseEstimation n cu)
              | None => library_PhaseEstimation n cu
              end];
        executions := executions w |}).
Proof.
  intros Hqi Hn Hu Hsp.
  unfold construct_circuit, self_num_evaluation_qubits. rewrite Hn.
  erewrite bind_Ok by reflexivity.
  erewrite bind_Ok by (unfold deref; by rewrite Hu).
  erewrite bind_Ok by reflexivity.
  destruct sp as [r|].
  - destruct (Hsp r eq_refl) as [p Hp].
    erewrite (bind_Ok _ _ _ ()).
    2:{ erewrite bind_Ok.
        2:{ unfold deref. cbn. rewrite lookup_app_l by by eapply lookup_lt_Some.
            by rewrite Hp. }
        erewrite mutate_run by (cbn; apply lookup_snoc_new). reflexivity. }
    erewrite bind_Raise by by apply add_measurement_no_instance.
    cbn. by rewrite insert_snoc_new, Hp.
  - erewrite (bind_Ok _ _ _ ()) by reflexivity.
    by erewrite bind_Raise by by apply add_measurement_no_instance.
Qed.

(** X4: an instance built with the default [quantum_instance=None] cannot
    estimate.  From a unitary the call ends in [AttributeError] on
    [is_statevector] only after the circuit is built: the template, with the
    state preparation composed in front when there is one, is left in the
    store as a new circuit.  On a caller's circuit it ends in the same error
    with the store unchanged.  The executor is never called and no circuit of
    the caller is changed. *)
Theorem no_executor_fails (n : nat) (unitary : loc)
    (state_preparation : option loc) (cu : QuantumCircuit)
    (num_unitary_qubits : option nat) (w : world) :
  heap w !! unitary = Some cu →
  (∀ r, state_preparation = Some r → is_Some (heap w !! r)) →
  let self := __init__ (Some n) None in
  let built :=
    match state_preparation ≫= (heap w !!.) with
    | Some prep =>
        compose prep (range n (n + num_qubits cu)) true
          (library_PhaseEstimation n cu)
    | None => library_PhaseEstimation n cu
    end in
  estimate self (Some unitary) state_preparation None num_unitary_qubits w
  = (Raise (AttributeError "is_statevector"),
     {| heap := heap w ++ [built]; executions := executions w |})
  ∧ (∀ pe_circuit,
       estimate self None state_preparation (Some pe_circuit) num_unitary_qubits w
       = (Raise (AttributeError "is_statevector"), w)).
Proof.
  intros Hu Hsp self built. split.
  - apply estimate_unitary_build_fails.
    by apply construct_circuit_no_instance.
  - intros pe. unfold estimate, self_num_evaluation_qubits. cbn.
    erewrite bind_Ok by reflexivity.
    erewrite bind_Raise; [done|].
    erewrite bind_Raise; [done|]. by apply add_measurement_no_instance.
Qed.

(** X5: when [pe_circuit] is passed (and the instance is complete),
    [estimate] hands the caller's own circuit to the executor, with the
    measurement part added in place if the executor samples, and gives the
    caller's [num_unitary_qubits] to the post-processor as it is; the
    [state_preparation] argument plays no part in the outcome. *)
Theorem estimate_pe_circuit_passes_through (self : PhaseEstimation)
    (qi : QuantumInstance) (n : nat) (pe_circuit : loc) (c : QuantumCircuit)
    (num_unitary_qubits : option nat) (w : world) :
  _quantum_instance self = Some qi →
  _num_evaluation_qubits self = Some n →
  heap w !! pe_circuit = Some c →
  let c' := if is_statevector qi then c else measured n c in
  ∀ state_preparation : option loc,
    estimate self None state_preparation (Some pe_circuit) num_unitary_qubits w
    = (r ← executor_outcome (execute qi c');
       phases ← _compute_phases self num_unitary_qubits r;
       Ok (mkPhaseEstimationResult n r phases),
       {| heap := <[pe_circuit := c']> (heap w);
          executions := executions w ++ [(pe_circuit, c')] |}).
Proof. intros Hqi Hn Hpe c' sp. by apply estimate_pe_circuit_run. Qed.

(** X6: on a statevector executor, [estimate] on a caller's circuit with
    [num_unitary_qubits] left at its default [None] runs the circuit and then
    ends in [TypeError]: the width of the unitary is needed there and nothing
    supplies it. *)
Theorem estimate_pe_circuit_needs_width (self : PhaseEstimation)
    (qi : QuantumInstance) (n : nat) (state_preparation : option loc)
    (pe_circuit : loc) (c : QuantumCircuit) (r : Result) (w : world) :
  _quantum_instance self = Some qi →
  is_statevector qi = true →
  _num_evaluation_qubits self = Some n →
  heap w !! pe_circuit = Some c →
  execute qi c = inr r →
  estimate self None state_preparation (Some pe_circuit) None w
  = (Raise TypeError,
     {| heap := heap w; executions := executions w ++ [(pe_circuit, c)] |}).
Proof.
  intros Hqi Hsv Hn Hpe Hr.
  erewrite estimate_pe_circuit_run by done. rewrite Hsv, Hr. cbn.
  erewrite compute_phases_statevector_run by done. cbn.
  by rewrite list_insert_id.
Qed.

(** X7: on a sampling executor, the [num_unitary_qubits] argument of
    [estimate] on a caller's circuit has no effect: the outcome and the store
    are the same for every value, on every input. *)
Theorem estimate_sampling_ignores_num_unitary_qubits (self : PhaseEstimation)
    (qi : QuantumInstance) (state_preparation : option loc) (pe_circuit : loc)
    (m m' : option nat) (w : world) :
  _quantum_instance self = Some qi →
  is_statevector qi = false →
  estimate self None state_preparation (Some pe_circuit) m w
  = estimate self None state_preparation (Some pe_circuit) m' w.
Proof.
  intros Hqi Hsv.
  destruct (_num_evaluation_qubits self) as [n|] eqn:Hn.
  2:{ by rewrite !estimate_unset. }
  destruct (heap w !! pe_circuit) as [c|] eqn:Hpe.
  - erewrite !estimate_pe_circuit_run by done. f_equal.
    destruct (executor_outcome _) as [r|e]; [|done]. cbn.
    by rewrite (compute_phases_sampling_any_width self qi m m').
  - by erewrite !estimate_pe_circuit_dangling_sampling.
Qed.

(** X8: when the sampling executor fails on a caller's circuit, [estimate]
    ends in the executor's own error, and the failed call is not atomic: the
    caller's circuit already carries the measurement register, the barrier and
    the measurements. *)
Theorem estimate_executor_failure_keeps_measurement (self : PhaseEstimation)
    (qi : QuantumInstance) (n : nat) (state_preparation : option loc)
    (pe_circuit : loc) (c : QuantumCircuit) (m : option nat) (msg : string)
    (w : world) :
  _quantum_instance self = Some qi →
  is_statevector qi = false →
  _num_evaluation_qubits self = Some n →
  heap w !! pe_circuit = Some c →
  execute qi (measured n c) = inl msg →
  (estimate self None state_preparation (Some pe_circuit) m w).1
    = Raise (ExecutorError msg)
  ∧ heap (estimate self None state_preparation (Some pe_circuit) m w).2 !! pe_circuit
    = Some (measured n c)
  ∧ measured n c ≠ c.
Proof.
  intros Hqi Hsv Hn Hpe Hfail.
  erewrite estimate_pe_circuit_run by done. rewrite Hsv, Hfail. cbn.
  split; [done|]. split.
  - apply list_lookup_insert_eq. by eapply lookup_lt_Some.
  - intros Heq. apply (f_equal (λ x, length (cregs x))) in Heq.
    cbn in Heq. rewrite length_app in Heq. cbn in Heq. lia.
Qed.

(** X9: on every input, [estimate] calls the executor at most once, and the
    circuit it was called on is in the store, in the state the executor saw. *)
Theorem estimate_executes_at_most_once (self : PhaseEstimation)
    (unitary state_preparation pe_circuit : option loc)
    (num_unitary_qubits : option nat) (w : world) :
  executions (estimate self unitary state_preparation pe_circuit num_unitary_qubits w).2
    = executions w
  ∨ ∃ r c,
      executions
        (estimate self unitary state_preparation pe_circuit num_unitary_qubits w).2
      = executions w ++ [(r, c)]
      ∧ heap (estimate self unitary state_preparation pe_circuit num_unitary_qubits w).2
          !! r = Some c.
Proof.
  destruct (_num_evaluation_qubits self) as [n|] eqn:Hn.
  2:{ left. by rewrite estimate_unset. }
  rename state_preparation into sp, num_unitary_qubits into m.
  destruct unitary as [u|], pe_circuit as [pe|].
  - left. by erewrite estimate_both.
  - destruct (construct_circuit self u sp w) as [[c|e] w1] eqn:Hc.
    + right.
      destruct (estimate_unitary_run self u sp m w _ _ Hc)
        as (qi & n' & cu & c' & _ & _ & _ & -> & -> & ->).
      exists (length (heap w)), c'. cbn. split; [done|]. apply lookup_snoc_new.
    + left. rewrite (estimate_unitary_build_fails _ _ _ _ _ _ _ Hc).
      destruct (construct_circuit_grows self u sp w) as (l & _ & Hw).
      rewrite Hc in Hw. cbn in Hw. by rewrite Hw.
  - destruct (_quantum_instance self) as [qi|] eqn:Hqi.
    2:{ left. destruct (estimate_pe_circuit_early_failure self sp pe m w) as [e ->];
          [by left|done]. }
    destruct (heap w !! pe) as [c|] eqn:Hpe.
    2:{ left. destruct (estimate_pe_circuit_early_failure self sp pe m w) as [e ->];
          [by right|done]. }
    right. erewrite estimate_pe_circuit_run by done.
    eexists _, _. cbn. split; [done|].
    apply list_lookup_insert_eq. by eapply lookup_lt_Some.
  - left. by erewrite estimate_neither.
Qed.

End EstimatePaths.

(** ** What a successful [estimate] returns, and the post-processor's edges *)

Section Outcomes.
Context `{!QiskitLibrary}.

Lemma package_inv self (o : string + Result) m n result :
  (r ← executor_outcome o;
   phases ← _compute_phases self m r;
   Ok (mkPhaseEstimationResult n r phases)) = Ok result →
  o = inr (circuit_result result)
  ∧ num_evaluation_qubits result = n
  ∧ _compute_phases self m (circuit_result result) = Ok (phases result).
Proof.
  destruct o as [msg|r]; cbn; [done|].
  destruct (_compute_phases self m r) as [ph|e] eqn:Hph; cbn; [|done].
  by intros [= <-].
Qed.

(** X10: a successful [estimate] called the executor exactly once, on a
    circuit that is in the store as the executor saw it, and returns the
    instance's evaluation width, the executor's result for that circuit, and
    the phases [_compute_phases] computes from that result. *)
Theorem estimate_result (self : PhaseEstimation)
    (unitary state_preparation pe_circuit : option loc)
    (num_unitary_qubits : option nat) (w w' : world)
    (result : PhaseEstimationResult) :
  estimate self unitary state_preparation pe_circuit num_unitary_qubits w
    = (Ok result, w') →
  ∃ qi n r c m,
    _quantum_instance self = Some qi
    ∧ _num_evaluation_qubits self = Some n
    ∧ executions w' = executions w ++ [(r, c)]
    ∧ heap w' !! r = Some c
    ∧ execute qi c = inr (circuit_result result)
    ∧ num_evaluation_qubits result = n
    ∧ _compute_phases self m (circuit_result result) = Ok (phases result).
Proof.
  intros He. destruct unitary as [u|], pe_circuit as [pe|].
  - destruct (_num_evaluation_qubits self) as [n|] eqn:Hn.
    + by rewrite (estimate_both _ n) in He.
    + by rewrite estimate_unset in He.
  - destruct (construct_circuit self u state_preparation w) as [[pe|e] w1] eqn:Hc.
    2:{ by rewrite (estimate_unitary_build_fails _ _ _ _ _ _ _ Hc) in He. }
    destruct (estimate_unitary_run self u state_preparation num_unitary_qubits
                w _ _ Hc)
      as (qi & n & cu & c & Hqi & Hn & _ & -> & -> & Hrun).
    rewrite Hrun in He. injection He as Hout <-.
    apply package_inv in Hout as (Hexec & Hwidth & Hphases).
    exists qi, n, (length (heap w)), c, (Some (num_qubits cu)).
    do 3 (split; [done|]). split; [cbn; apply lookup_snoc_new|]. done.
  - destruct (estimate_pe_circuit_inv _ _ _ _ _ _ _ He)
      as (qi & n & c & Hqi & Hn & Hpe & _).
    erewrite estimate_pe_circuit_run in He by done. injection He as Hout <-.
    apply package_inv in Hout as (Hexec & Hwidth & Hphases).
    eexists qi, n, pe, _, num_unitary_qubits.
    do 3 (split; [done|]). split; [|done].
    cbn. apply list_lookup_insert_eq. by eapply lookup_lt_Some.
  - destruct (_num_evaluation_qubits self) as [n|] eqn:Hn.
    + by rewrite (estimate_neither _ n) in He.
    + by rewrite estimate_unset in He.
Qed.

(** X11: on a statevector executor and an instance of width [n],
    [_compute_phases] with [num_unitary_qubits = m] returns the probabilities
    of the state vector with exactly the qubits [n .. n+m-1] traced out, so no
    evaluation qubit is traced out; shots and counts are not read. *)
Theorem compute_phases_statevector (self : PhaseEstimation)
    (qi : QuantumInstance) (n m : nat) (r : Result) :
  _quantum_instance self = Some qi →
  is_statevector qi = true →
  _num_evaluation_qubits self = Some n →
  ∃ traced,
    _compute_phases self (Some m) r
    = Ok (PhasesArray (probabilities (partial_trace (get_statevector r) traced)))
    ∧ length traced = m
    ∧ (∀ q, q ∈ traced ↔ n ≤ q < n + m)
    ∧ (∀ r', get_statevector r' = get_statevector r →
             _compute_phases self (Some m) r' = _compute_phases self (Some m) r).
Proof.
  intros Hqi Hsv Hn. exists (seq n m).
  split; [by erewrite compute_phases_statevector_run|].
  split; [apply length_seq|]. split.
  - intros q. rewrite elem_of_seq. lia.
  - intros r' Hr'. erewrite !compute_phases_statevector_run by done.
    by rewrite Hr'.
Qed.

Lemma compute_phases_sampling_empty self qi m r :
  _quantum_instance self = Some qi → is_statevector qi = false →
  counts_items (get_counts r) = [] →
  _compute_phases self m r
  = Ok (PhasesCounts
          (mkCounts [] (memory_slots (get_counts r)) (creg_sizes (get_counts r)))).
Proof.
  intros Hqi Hsv Hcounts. unfold _compute_phases, self_is_statevector.
  rewrite Hqi, Hsv. cbn. by rewrite Hcounts.
Qed.

(** X12: on a sampling executor, empty counts give an empty distribution
    whatever the shot count, and a shot count of zero with any count present
    ends in [ZeroDivisionError]. *)
Theorem compute_phases_zero_shots (self : PhaseEstimation) (qi : QuantumInstance)
    (num_unitary_qubits : option nat) (r : Result) :
  _quantum_instance self = Some qi →
  is_statevector qi = false →
  (counts_items (get_counts r) = [] →
     _compute_phases self num_unitary_qubits r
     = Ok (PhasesCounts
             (mkCounts [] (memory_slots (get_counts r))
                (creg_sizes (get_counts r)))))
  ∧ (shots r = 0%Z → counts_items (get_counts r) ≠ [] →
     _compute_phases self num_unitary_qubits r = Raise ZeroDivisionError).
Proof.
  intros Hqi Hsv. split.
  - by apply (compute_phases_sampling_empty self qi).
  - unfold _compute_phases, self_is_statevector. rewrite Hqi, Hsv. cbn.
    intros -> Hne. destruct (counts_items (get_counts r)) as [|[k c] l]; [done|].
    cbn. unfold getitem. by rewrite dict_get_head.
Qed.

(** X13: on a sampling executor, the distribution [_compute_phases] returns
    carries the classical-register layout of the executor's counts
    ([memory_slots], [creg_sizes]), and has one entry for each entry of the
    counts. *)
Theorem compute_phases_sampling_layout (self : PhaseEstimation)
    (qi : QuantumInstance) (num_unitary_qubits : option nat) (r : Result)
    (out : Counts float) :
  _quantum_instance self = Some qi →
  is_statevector qi = false →
  _compute_phases self num_unitary_qubits r = Ok (PhasesCounts out) →
  memory_slots out = memory_slots (get_counts r)
  ∧ creg_sizes out = creg_sizes (get_counts r)
  ∧ (NoDup (keys (counts_items (get_counts r))) →
     length (counts_items out) = length (counts_items (get_counts r))).
Proof.
  intros Hqi Hsv Hout.
  assert (memory_slots out = memory_slots (get_counts r)
          ∧ creg_sizes out = creg_sizes (get_counts r)) as [Hm Hc].
  { revert Hout. unfold _compute_phases, self_is_statevector.
    rewrite Hqi, Hsv. cbn.
    destruct (reversed_frequencies _ _ _ _) as [phases|e]; cbn; [|done].
    by intros [= <-]. }
  do 2 (split; [done|]). intros Hnd.
  revert Hout. unfold _compute_phases, self_is_statevector.
  rewrite Hqi, Hsv. cbn.
  destruct (reversed_frequencies _ _ _ _) as [phases|e] eqn:Hrf; cbn; [|done].
  intros [= <-]. cbn.
  apply reversed_frequencies_inv in Hrf as ->; [|done].
  by rewrite sort_phases_Permutation, length_fmap.
Qed.

End Outcomes.

(** ** The further theorems at concrete inputs *)

Lemma construct_circuit_without_state_preparation_witness :
  ∃ c,
    construct_circuit sampling_estimator 0 None two_circuits
    = (Ok 2, {| heap := heap two_circuits ++ [c]; executions := [] |})
    ∧ data c
      = [mkInstruction (Gate "QPE") [0; 1; 2] [];
         mkInstruction Barrier [0; 1; 2] [];
         mkInstruction Measure [0] [0];
         mkInstruction Measure [1] [1]].
Proof.
  destruct (construct_circuit_without_state_preparation sampling_estimator
              (toy_sampler 100 observed_counts) 2 0 identity_unitary two_circuits
              eq_refl eq_refl eq_refl)
    as (c & Hrun & Hdata & _).
  exists c. split; [exact Hrun|exact Hdata].
Defined.

Lemma no_executor_fails_witness :
  heap two_circuits !! 0 = Some identity_unitary
  ∧ estimate no_executor_estimator None (Some 1) (Some 0) None two_circuits
    = (Raise (AttributeError "is_statevector"), two_circuits)
  ∧ estimate no_executor_estimator (Some 0) (Some 1) None None two_circuits
    = (Raise (AttributeError "is_statevector"),
       {| heap :=
            [identity_unitary; x_preparation;
             {| num_qubits := 3;
                cregs := [];
                data := [mkInstruction (Gate "x") [2] [];
                         mkInstruction (Gate "QPE") [0; 1; 2] []] |}];
          executions := [] |}).
Proof.
  split; [reflexivity|].
  assert (∀ r, Some 1 = Some r → is_Some (heap two_circuits !! r)) as Hsp.
  { intros r [= <-]. by eexists. }
  destruct (@no_executor_fails toy_library 2 0 (Some 1) identity_unitary None
              two_circuits eq_refl Hsp) as [Hunitary Hpe].
  split; [exact (Hpe 0)|exact Hunitary].
Defined.

Lemma estimate_pe_circuit_passes_through_witness :
  (estimate statevector_estimator None (Some 1) (Some 0) (Some 1) two_circuits).2
  = {| heap := heap two_circuits; executions := [(0, identity_unitary)] |}.
Proof.
  rewrite (estimate_pe_circuit_passes_through statevector_estimator toy_simulator
             2 0 identity_unitary (Some 1) two_circuits eq_refl eq_refl eq_refl
             (Some 1)).
  reflexivity.
Defined.

Lemma estimate_pe_circuit_needs_width_witness :
  estimate statevector_estimator None None (Some 0) None two_circuits
  = (Raise TypeError,
     {| heap := heap two_circuits; executions := [(0, identity_unitary)] |}).
Proof.
  apply (estimate_pe_circuit_needs_width statevector_estimator toy_simulator 2
           None 0 identity_unitary (toy_result 1 []) two_circuits);
    reflexivity.
Defined.

Lemma estimate_sampling_ignores_num_unitary_qubits_witness :
  estimate sampling_estimator None None (Some 0) None two_circuits
  = estimate sampling_estimator None None (Some 0) (Some 7) two_circuits.
Proof.
  apply (estimate_sampling_ignores_num_unitary_qubits sampling_estimator
           (toy_sampler 100 observed_counts)); reflexivity.
Defined.

Lemma estimate_executor_failure_keeps_measurement_witness :
  (estimate failing_estimator None None (Some 0) None two_circuits).1
  = Raise (ExecutorError "backend offline")
  ∧ heap (estimate failing_estimator None None (Some 0) None two_circuits).2 !! 0
    = Some (measured 2 identity_unitary).
Proof.
  destruct (estimate_executor_failure_keeps_measurement failing_estimator
              failing_sampler 2 None 0 identity_unitary None "backend offline"
              two_circuits eq_refl eq_refl eq_refl eq_refl eq_refl)
    as (Hout & Hheap & _).
  split; [exact Hout|exact Hheap].
Defined.

Lemma estimate_result_witness :
  ∃ result w',
    estimate sampling_estimator (Some 0) (Some 1) None None two_circuits
    = (Ok result, w')
    ∧ num_evaluation_qubits result = 2
    ∧ ∃ r c, executions w' = [(r, c)] ∧ heap w' !! r = Some c.
Proof.
  eexists _, _. split; [reflexivity|].
  destruct (estimate_result sampling_estimator (Some 0) (Some 1) None None
              two_circuits _ _ eq_refl)
    as (qi & n & r & c & m & _ & Hn & Hlog & Hheap & _ & Hwidth & _).
  injection Hn as <-. split; [exact Hwidth|].
  exists r, c. split; [exact Hlog|exact Hheap].
Defined.

Lemma compute_phases_statevector_witness :
  ∃ traced,
    _compute_phases statevector_estimator (Some 1) (toy_result 1 [])
    = Ok (PhasesArray
            (@probabilities toy_library (@partial_trace toy_library tt traced)))
    ∧ (∀ q, q ∈ traced ↔ 2 ≤ q < 2 + 1).
Proof.
  destruct (compute_phases_statevector statevector_estimator toy_simulator 2 1
              (toy_result 1 []) eq_refl eq_refl eq_refl)
    as (traced & Hrun & _ & Hrange & _).
  exists traced. split; [exact Hrun|exact Hrange].
Defined.

Lemma compute_phases_zero_shots_witness :
  _compute_phases sampling_estimator None (toy_result 100 [])
  = Ok (PhasesCounts (mkCounts [] (Some 2) (Some [("meas", 2)])))
  ∧ _compute_phases sampling_estimator None (toy_result 0 observed_counts)
    = Raise ZeroDivisionError.
Proof.
  split.
  - apply (compute_phases_zero_shots sampling_estimator
             (toy_sampler 100 observed_counts) None (toy_result 100 [])
             eq_refl eq_refl).
    reflexivity.
  - apply (compute_phases_zero_shots sampling_estimator
             (toy_sampler 100 observed_counts) None (toy_result 0 observed_counts)
             eq_refl eq_refl); [reflexivity|discriminate].
Defined.

Lemma compute_phases_sampling_layout_witness :
  ∃ out,
    _compute_phases sampling_estimator None (toy_result 100 observed_counts)
    = Ok (PhasesCounts out)
    ∧ memory_slots out = Some 2
    ∧ length (counts_items out) = 2.
Proof.
  eexists. split; [reflexivity|].
  destruct (compute_phases_sampling_layout sampling_estimator
              (toy_sampler 100 observed_counts) None
              (toy_result 100 observed_counts) _ eq_refl eq_refl eq_refl)
    as (Hslots & _ & Hlength).
  split; [exact Hslots|]. apply Hlength.
  apply (bool_decide_unpack _). vm_compute. exact I.
Defined.
